(** * RM-Tools QU-fitting models [m111] and [m6]: models, converters, priors

    A shallow embedding of [RMtools_1D/models_ns/m111.py] and
    [RMtools_1D/models_ns/m6.py].

    Conventions of the embedding.
    - A Python [float] / numpy [float64] that holds a finite value is a real
      number ([R]); arithmetic on finite values is exact (no rounding, no
      overflow, no signed zero).  Over exact reals every numpy operation the
      two models use is total and finite except the division, so values are
      typed as reals up to the division of the [m6] model, whose result is a
      [float64] that can also be [NaN] or an infinity.
    - A parameter dictionary is a [gmap string R]; a subscript [d[k]] on a
      missing key raises [KeyError k].  The model functions only read their
      dictionary and take its contents; the converters copy a dictionary and
      assign to the copy, so they take a reference into a heap of
      dictionary objects.
    - A one-dimensional numpy array is a [list]; element-wise operations are
      [fmap] and [zip_with] (every array of a call has the shape of the
      wavelength-squared array it was computed from). *)

From Stdlib Require Import Reals Lra.
From stdpp Require Import base option list strings gmap fin_maps.

Local Open Scope R_scope.

(** ** Exceptions and the exception monad *)

Inductive exn : Type :=
  | KeyError (key : string).

Inductive result (A : Type) : Type :=
  | Ok (a : A)
  | Raise (e : exn).
Arguments Ok {A} a.
Arguments Raise {A} e.

(** Sequencing: [x ← m; k] runs [m], and runs [k] on its value unless [m]
    raised. *)
#[global] Instance result_bind : MBind result := λ A B k m,
  match m with
  | Ok a => k a
  | Raise e => Raise e
  end.

(** [pDict[key]] *)
Definition getitem (pDict : gmap string R) (key : string) : result R :=
  match pDict !! key with
  | Some v => Ok v
  | None => Raise (KeyError key)
  end.

(** ** Dictionary objects on the heap

    A [dict] that is copied and assigned to is an object: a location of the
    heap, whose contents an assignment changes for every holder of the
    reference.  A computation takes the heap and returns its outcome with the
    heap it leaves, also when it raises. *)

Abbreviation loc := positive.
Abbreviation heap := (gmap loc (gmap string R)).

Definition py (A : Type) : Type := heap → result A * heap.

#[global] Instance py_ret : MRet py := λ A a h, (Ok a, h).

#[global] Instance py_bind : MBind py := λ A B k m h,
  match m h with
  | (Ok a, h') => k a h'
  | (Raise e, h') => (Raise e, h')
  end.

(** The contents of the object at [l] (a reference the program holds always
    points to an object; elsewhere the contents read as empty). *)
Definition contents (h : heap) (l : loc) : gmap string R := h !!! l.

(** [d.copy()]: a new object with the contents of [d]. *)
Definition dict_copy (d : loc) : py loc := λ h,
  let l := fresh (dom h) in
  (Ok l, <[l := contents h d]> h).

(** [d[key]] *)
Definition dict_getitem (d : loc) (key : string) : py R := λ h,
  (getitem (contents h d) key, h).

(** [d[key] = value] *)
Definition dict_setitem (d : loc) (key : string) (value : R) : py unit := λ h,
  (Ok (), <[d := <[key := value]> (contents h d)]> h).

(** ** Finite complex numbers (numpy [complex128] holding finite parts) *)

Record complex : Type := Cx { real : R; imag : R }.

(** A real operand of a mixed real/complex operation is cast to complex. *)
Definition of_real (x : R) : complex := Cx x 0.

Definition cadd (z w : complex) : complex :=
  Cx (real z + real w) (imag z + imag w).

Definition cmul (z w : complex) : complex :=
  Cx (real z * real w - imag z * imag w)
     (real z * imag w + imag z * real w).

(** [np.exp] on a complex value *)
Definition cexp (z : complex) : complex :=
  Cx (exp (real z) * cos (imag z)) (exp (real z) * sin (imag z)).

(** The Python literal [2j] *)
Definition two_j : complex := Cx 0 2.

(** [np.radians] *)
Definition radians (deg : R) : R := deg * (PI / 180).

(** ** Values that need not be finite

    The result of a division: a finite value, an infinity or NaN. *)

Inductive float64 : Type :=
  | Finite (x : R)
  | PosInf
  | NegInf
  | NaN.

Record complex128 : Type := C128 { real128 : float64; imag128 : float64 }.

Definition of_complex (z : complex) : complex128 :=
  C128 (Finite (real z)) (Finite (imag z)).

(** IEEE-754 addition. *)
Definition fadd (a b : float64) : float64 :=
  match a, b with
  | NaN, _ | _, NaN => NaN
  | Finite x, Finite y => Finite (x + y)
  | PosInf, NegInf | NegInf, PosInf => NaN
  | PosInf, _ | _, PosInf => PosInf
  | NegInf, _ | _, NegInf => NegInf
  end.

Definition cadd128 (z w : complex128) : complex128 :=
  C128 (fadd (real128 z) (real128 w)) (fadd (imag128 z) (imag128 w)).

(** IEEE-754 [x / 0.0] for a finite [x] and a positive zero: NaN for a zero
    dividend, else the infinity of the dividend's sign. *)
Definition fdiv_zero (x : R) : float64 :=
  if Req_dec_T x 0 then NaN
  else if Rlt_dec 0 x then PosInf else NegInf.

(** numpy's [complex128] division loop (Smith's method), on finite operands:
<<
    in2r_abs = fabs(in2r);  in2i_abs = fabs(in2i);
    if (in2r_abs >= in2i_abs) {
        if (in2r_abs == 0 && in2i_abs == 0) {
            out.r = in1r/in2r_abs;  out.i = in1i/in2r_abs;
        } else {
            rat = in2i/in2r;  scl = 1.0/(in2r + in2i*rat);
            out.r = (in1r + in1i*rat)*scl;  out.i = (in1i - in1r*rat)*scl;
        }
    } else {
        rat = in2r/in2i;  scl = 1.0/(in2i + in2r*rat);
        out.r = (in1r*rat + in1i)*scl;  out.i = (in1i*rat - in1r)*scl;
    }
>>
    Only the division by a zero divisor leaves the finite values (lemma
    [cdiv_divisors_nonzero] below). *)
Definition cdiv (in1 in2 : complex) : complex128 :=
  let in2r_abs := Rabs (real in2) in
  let in2i_abs := Rabs (imag in2) in
  if Rge_dec in2r_abs in2i_abs then
    if Req_dec_T in2r_abs 0 then
      C128 (fdiv_zero (real in1)) (fdiv_zero (imag in1))
    else
      let rat := imag in2 / real in2 in
      let scl := 1 / (real in2 + imag in2 * rat) in
      C128 (Finite ((real in1 + imag in1 * rat) * scl))
           (Finite ((imag in1 - real in1 * rat) * scl))
  else
    let rat := real in2 / imag in2 in
    let scl := 1 / (imag in2 + real in2 * rat) in
    C128 (Finite ((real in1 * rat + imag in1) * scl))
         (Finite ((imag in1 * rat - real in1) * scl)).

(** ** numpy array operations *)

Module np.

Definition ones_like {A : Type} (a : list A) : list R := (λ _, 1) <$> a.

(** scalar [*] real array *)
Definition smul (s : R) (a : list R) : list R := Rmult s <$> a.

(** scalar [+] real array *)
Definition sadd (s : R) (a : list R) : list R := Rplus s <$> a.

(** complex scalar [*] real array *)
Definition csmul (s : complex) (a : list R) : list complex :=
  (λ x, cmul s (of_real x)) <$> a.

(** real array [*] complex array *)
Definition mul_rc (a : list R) (b : list complex) : list complex :=
  zip_with (λ x z, cmul (of_real x) z) a b.

(** complex array [*] real array *)
Definition mul_cr (a : list complex) (b : list R) : list complex :=
  zip_with (λ z x, cmul z (of_real x)) a b.

(** complex array [+] complex array *)
Definition add (a b : list complex) : list complex := zip_with cadd a b.

Definition exp (a : list complex) : list complex := cexp <$> a.

Definition sin (a : list R) : list R := Rtrigo_def.sin <$> a.

(** complex array [/] real array *)
Definition div_cr (a : list complex) (b : list R) : list complex128 :=
  zip_with (λ z x, cdiv z (of_real x)) a b.

(** addition of two complex arrays whose values need not be finite *)
Definition add128 (a b : list complex128) : list complex128 :=
  zip_with cadd128 a b.

End np.

(** ** Prior declarations ([bilby.core.prior])

    The two model files only construct prior objects; what is recorded here
    is what they pass to the constructors. *)

Module bilby.

Inductive kind : Type := Uniform | Constraint.

Record Prior : Type := mkPrior {
  prior_kind : kind;
  minimum : R;
  maximum : R;
  name : string;
  latex_label : string;
  boundary : option string
}.

(** A [PriorDict] is a [dict] (keys in order of first assignment) with a
    conversion function attached. *)
Record PriorDict : Type := mkPriorDict {
  conversion_function : loc → py loc;
  items : list (string * Prior)
}.

(** [priors[key] = prior] *)
Fixpoint setitem_items (key : string) (prior : Prior)
    (l : list (string * Prior)) : list (string * Prior) :=
  match l with
  | [] => [(key, prior)]
  | (k, v) :: l' =>
      if decide (k = key) then (k, prior) :: l'
      else (k, v) :: setitem_items key prior l'
  end.

Definition setitem (key : string) (prior : Prior) (pd : PriorDict)
  : PriorDict :=
  mkPriorDict (conversion_function pd) (setitem_items key prior (items pd)).

Fixpoint lookup_items (key : string) (l : list (string * Prior))
  : option Prior :=
  match l with
  | [] => None
  | (k, v) :: l' => if decide (k = key) then Some v else lookup_items key l'
  end.

(** [priors.get(key)] *)
Definition get (pd : PriorDict) (key : string) : option Prior :=
  lookup_items key (items pd).

(** The interval [[minimum, maximum]] a prior declares. *)
Definition in_bounds (p : Prior) (v : R) : Prop :=
  minimum p <= v <= maximum p.

End bilby.

(** ** Model [m111]: three Faraday-thin components *)

Module m111.

Definition model (pDict : gmap string R) (lamSqArr_m2 : list R)
  : result (list complex) :=
  p1 ← getitem pDict "fracPol1";
  let pArr1 := np.smul p1 (np.ones_like lamSqArr_m2) in
  p2 ← getitem pDict "fracPol2";
  let pArr2 := np.smul p2 (np.ones_like lamSqArr_m2) in
  p3 ← getitem pDict "fracPol3";
  let pArr3 := np.smul p3 (np.ones_like lamSqArr_m2) in
  psi1 ← getitem pDict "psi01_deg";
  rm1 ← getitem pDict "RM1_radm2";
  let quArr1 :=
    np.mul_rc pArr1
      (np.exp (np.csmul two_j
                 (np.sadd (radians psi1) (np.smul rm1 lamSqArr_m2)))) in
  psi2 ← getitem pDict "psi02_deg";
  rm2 ← getitem pDict "RM2_radm2";
  let quArr2 :=
    np.mul_rc pArr2
      (np.exp (np.csmul two_j
                 (np.sadd (radians psi2) (np.smul rm2 lamSqArr_m2)))) in
  psi3 ← getitem pDict "psi03_deg";
  rm3 ← getitem pDict "RM3_radm2";
  let quArr3 :=
    np.mul_rc pArr3
      (np.exp (np.csmul two_j
                 (np.sadd (radians psi3) (np.smul rm3 lamSqArr_m2)))) in
  let quArr := np.add (np.add quArr1 quArr2) quArr3 in
  Ok quArr.

(** Converts between the sampled parameters and the constraint
    parameters. *)
Definition converter (parameters : loc) : py loc :=
  converted_parameters ← dict_copy parameters;
  rm1 ← dict_getitem parameters "RM1_radm2";
  rm2 ← dict_getitem parameters "RM2_radm2";
  dict_setitem converted_parameters "delta_RM1_RM2_radm2" (rm1 - rm2);;
  rm2 ← dict_getitem parameters "RM2_radm2";
  rm3 ← dict_getitem parameters "RM3_radm2";
  dict_setitem converted_parameters "delta_RM2_RM3_radm2" (rm2 - rm3);;
  p1 ← dict_getitem parameters "fracPol1";
  p2 ← dict_getitem parameters "fracPol2";
  p3 ← dict_getitem parameters "fracPol3";
  dict_setitem converted_parameters "sum_p1_p2_p3" (p1 + p2 + p3);;
  mret converted_parameters.

Definition priors : bilby.PriorDict :=
  let priors := bilby.mkPriorDict converter [] in
  let priors :=
    bilby.setitem "fracPol1"
      (bilby.mkPrior bilby.Uniform 0.0 1.0 "fracPol1"
         "$p_1$" None) priors in
  let priors :=
    bilby.setitem "fracPol2"
      (bilby.mkPrior bilby.Uniform 0.0 1.0 "fracPol2"
         "$p_2$" None) priors in
  let priors :=
    bilby.setitem "fracPol3"
      (bilby.mkPrior bilby.Uniform 0.0 1.0 "fracPol3"
         "$p_3$" None) priors in
  let priors :=
    bilby.setitem "psi01_deg"
      (bilby.mkPrior bilby.Uniform 0 180.0 "psi01_deg"
         "$\psi_{0,1}$ (deg)" (Some "periodic")) priors in
  let priors :=
    bilby.setitem "psi02_deg"
      (bilby.mkPrior bilby.Uniform 0 180.0 "psi02_deg"
         "$\psi_{0,2}$ (deg)" (Some "periodic")) priors in
  let priors :=
    bilby.setitem "psi03_deg"
      (bilby.mkPrior bilby.Uniform 0 180.0 "psi03_deg"
         "$\psi_{0,3}$ (deg)" (Some "periodic")) priors in
  let priors :=
    bilby.setitem "RM1_radm2"
      (bilby.mkPrior bilby.Uniform (-1100.0) 1100.0 "RM1_radm2"
         "$\phi_1$ (rad m$^{-2}$)" None) priors in
  let priors :=
    bilby.setitem "RM2_radm2"
      (bilby.mkPrior bilby.Uniform (-1100.0) 1100.0 "RM2_radm2"
         "$\phi_2$ (rad m$^{-2}$)" None) priors in
  let priors :=
    bilby.setitem "RM3_radm2"
      (bilby.mkPrior bilby.Uniform (-1100.0) 1100.0 "RM3_radm2"
         "$\phi_3$ (rad m$^{-2}$)" None) priors in
  let priors :=
    bilby.setitem "delta_RM1_RM2_radm2"
      (bilby.mkPrior bilby.Constraint 0 2200.0 "delta_RM1_RM2_radm2"
         "$\Delta\phi_{1,2}$ (rad m$^{-2}$)" None) priors in
  let priors :=
    bilby.setitem "delta_RM2_RM3_radm2"
      (bilby.mkPrior bilby.Constraint 0 2200.0 "delta_RM2_RM3_radm2"
         "$\Delta\phi_{1,2}$ (rad m$^{-2}$)" None) priors in
  let priors :=
    bilby.setitem "sum_p1_p2_p3"
      (bilby.mkPrior bilby.Constraint 0.0 1 "sum_p1_p2_p3"
         "$p_1+p_2+p_3$)" None) priors in
  priors.

End m111.

(** ** Model [m6]: two Burn slabs *)

Module m6.

Definition model (pDict : gmap string R) (lamSqArr_m2 : list R)
  : result (list complex128) :=
  p1 ← getitem pDict "fracPol1";
  let pArr1 := np.smul p1 (np.ones_like lamSqArr_m2) in
  p2 ← getitem pDict "fracPol2";
  let pArr2 := np.smul p2 (np.ones_like lamSqArr_m2) in
  psi1 ← getitem pDict "psi01_deg";
  drm1 ← getitem pDict "deltaRM1_radm2";
  rm1 ← getitem pDict "RM1_radm2";
  let quArr1 :=
    np.mul_rc pArr1
      (np.exp (np.csmul two_j
                 (np.sadd (radians psi1)
                    (np.smul (0.5 * drm1 + rm1) lamSqArr_m2)))) in
  psi2 ← getitem pDict "psi02_deg";
  drm2 ← getitem pDict "deltaRM2_radm2";
  rm2 ← getitem pDict "RM2_radm2";
  let quArr2 :=
    np.mul_rc pArr2
      (np.exp (np.csmul two_j
                 (np.sadd (radians psi2)
                    (np.smul (0.5 * drm2 + rm2) lamSqArr_m2)))) in
  n1 ← getitem pDict "deltaRM1_radm2";
  d1 ← getitem pDict "deltaRM1_radm2";
  n2 ← getitem pDict "deltaRM2_radm2";
  d2 ← getitem pDict "deltaRM2_radm2";
  let quArr :=
    np.add128
      (np.div_cr (np.mul_cr quArr1 (np.sin (np.smul n1 lamSqArr_m2)))
                 (np.smul d1 lamSqArr_m2))
      (np.div_cr (np.mul_cr quArr2 (np.sin (np.smul n2 lamSqArr_m2)))
                 (np.smul d2 lamSqArr_m2)) in
  Ok quArr.

(** Converts between the sampled parameters and the constraint
    parameters. *)
Definition converter (parameters : loc) : py loc :=
  converted_parameters ← dict_copy parameters;
  rm1 ← dict_getitem parameters "RM1_radm2";
  rm2 ← dict_getitem parameters "RM2_radm2";
  dict_setitem converted_parameters "delta_RM1_RM2_radm2" (rm1 - rm2);;
  p1 ← dict_getitem parameters "fracPol1";
  p2 ← dict_getitem parameters "fracPol2";
  dict_setitem converted_parameters "sum_p1_p2" (p1 + p2);;
  mret converted_parameters.

Definition priors : bilby.PriorDict :=
  let priors := bilby.mkPriorDict converter [] in
  let priors :=
    bilby.setitem "fracPol1"
      (bilby.mkPrior bilby.Uniform 0.0 1.0 "fracPol1"
         "$p_1$" None) priors in
  let priors :=
    bilby.setitem "fracPol2"
      (bilby.mkPrior bilby.Uniform 0.0 1.0 "fracPol2"
         "$p_2$" None) priors in
  let priors :=
    bilby.setitem "psi01_deg"
      (bilby.mkPrior bilby.Uniform 0 180.0 "psi01_deg"
         "$\psi_{0,1}$ (deg)" (Some "periodic")) priors in
  let priors :=
    bilby.setitem "psi02_deg"
      (bilby.mkPrior bilby.Uniform 0 180.0 "psi02_deg"
         "$\psi_{0,2}$ (deg)" (Some "periodic")) priors in
  let priors :=
    bilby.setitem "RM1_radm2"
      (bilby.mkPrior bilby.Uniform (-1100.0) 1100.0 "RM1_radm2"
         "$\phi_1$ (rad m$^{-2}$)" None) priors in
  let priors :=
    bilby.setitem "RM2_radm2"
      (bilby.mkPrior bilby.Uniform (-1100.0) 1100.0 "RM2_radm2"
         "$\phi_2$ (rad m$^{-2}$)" None) priors in
  let priors :=
    bilby.setitem "deltaRM1_radm2"
      (bilby.mkPrior bilby.Uniform 0.0 100.0 "deltaRM1_radm2"
         "$\Delta{RM,1}$ (rad m$^{-2}$))" None) priors in
  let priors :=
    bilby.setitem "deltaRM2_radm2"
      (bilby.mkPrior bilby.Uniform 0.0 100.0 "deltaRM2_radm2"
         "$\Delta{RM,2}$ (rad m$^{-2}$)" None) priors in
  let priors :=
    bilby.setitem "delta_RM1_RM2_radm2"
      (bilby.mkPrior bilby.Constraint 0 2200.0 "delta_RM1_RM2_radm2"
         "$\Delta\phi_{1,2}$ (rad m$^{-2}$)" None) priors in
  let priors :=
    bilby.setitem "sum_p1_p2"
      (bilby.mkPrior bilby.Constraint 0.0 1 "sum_p1_p2"
         "$p_1+p_2$)" None) priors in
  priors.

End m6.

(** ** The formulas of the specification *)

(** [exp(i·x)] *)
Definition cis (x : R) : complex := Cx (cos x) (sin x).

(** A Faraday-thin component at wavelength-squared [lamSq]:
    [p · exp(2i·(ψ₀ + RM·λ²))], the intrinsic angle [ψ₀] given in degrees. *)
Definition thin_component (p psi0_deg RM lamSq : R) : complex :=
  let z := cis (2 * (radians psi0_deg + RM * lamSq)) in
  Cx (p * real z) (p * imag z).

Module m111_spec.

Record params : Type := Params {
  fracPol1 : R; fracPol2 : R; fracPol3 : R;
  psi01_deg : R; psi02_deg : R; psi03_deg : R;
  RM1_radm2 : R; RM2_radm2 : R; RM3_radm2 : R
}.

(** The mapping [pDict] contains the nine keys of the model, with the
    values [θ]. *)
Definition holds (pDict : gmap string R) (θ : params) : Prop :=
  pDict !! "fracPol1" = Some (fracPol1 θ) ∧
  pDict !! "fracPol2" = Some (fracPol2 θ) ∧
  pDict !! "fracPol3" = Some (fracPol3 θ) ∧
  pDict !! "psi01_deg" = Some (psi01_deg θ) ∧
  pDict !! "psi02_deg" = Some (psi02_deg θ) ∧
  pDict !! "psi03_deg" = Some (psi03_deg θ) ∧
  pDict !! "RM1_radm2" = Some (RM1_radm2 θ) ∧
  pDict !! "RM2_radm2" = Some (RM2_radm2 θ) ∧
  pDict !! "RM3_radm2" = Some (RM3_radm2 θ).

(** The sum of the three thin components. *)
Definition spectrum (θ : params) (lamSq : R) : complex :=
  cadd (cadd (thin_component (fracPol1 θ) (psi01_deg θ) (RM1_radm2 θ) lamSq)
             (thin_component (fracPol2 θ) (psi02_deg θ) (RM2_radm2 θ) lamSq))
       (thin_component (fracPol3 θ) (psi03_deg θ) (RM3_radm2 θ) lamSq).

End m111_spec.

(** IEEE-754 division of two finite values. *)
Definition fdiv (x y : R) : float64 :=
  if Req_dec_T y 0 then fdiv_zero x else Finite (x / y).

(** IEEE-754 product of a value [s] and a finite value [x]. *)
Definition fscale (s : float64) (x : R) : float64 :=
  match s with
  | Finite a => Finite (a * x)
  | NaN => NaN
  | PosInf =>
      if Req_dec_T x 0 then NaN else if Rlt_dec 0 x then PosInf else NegInf
  | NegInf =>
      if Req_dec_T x 0 then NaN else if Rlt_dec 0 x then NegInf else PosInf
  end.

(** The sinc envelope [sin(ΔRM·λ²)/(ΔRM·λ²)] of a slab. *)
Definition sinc_envelope (deltaRM lamSq : R) : float64 :=
  fdiv (sin (deltaRM * lamSq)) (deltaRM * lamSq).

(** The mean rotation measure of a slab that starts at [RM] and is
    [deltaRM] deep. *)
Definition mean_RM (RM deltaRM : R) : R := RM + deltaRM / 2.

(** A Burn slab at wavelength-squared [lamSq]:
    [p · exp(2i·(ψ₀ + mean RM·λ²))] multiplied by the sinc envelope. *)
Definition burn_slab (p psi0_deg RM deltaRM lamSq : R) : complex128 :=
  let z := thin_component p psi0_deg (mean_RM RM deltaRM) lamSq in
  let s := sinc_envelope deltaRM lamSq in
  C128 (fscale s (real z)) (fscale s (imag z)).

Module m6_spec.

Record params : Type := Params {
  fracPol1 : R; fracPol2 : R;
  psi01_deg : R; psi02_deg : R;
  RM1_radm2 : R; RM2_radm2 : R;
  deltaRM1_radm2 : R; deltaRM2_radm2 : R
}.

(** The mapping [pDict] contains the eight keys of the model, with the
    values [θ]. *)
Definition holds (pDict : gmap string R) (θ : params) : Prop :=
  pDict !! "fracPol1" = Some (fracPol1 θ) ∧
  pDict !! "fracPol2" = Some (fracPol2 θ) ∧
  pDict !! "psi01_deg" = Some (psi01_deg θ) ∧
  pDict !! "psi02_deg" = Some (psi02_deg θ) ∧
  pDict !! "RM1_radm2" = Some (RM1_radm2 θ) ∧
  pDict !! "RM2_radm2" = Some (RM2_radm2 θ) ∧
  pDict !! "deltaRM1_radm2" = Some (deltaRM1_radm2 θ) ∧
  pDict !! "deltaRM2_radm2" = Some (deltaRM2_radm2 θ).

(** The sum of the two slabs. *)
Definition spectrum (θ : params) (lamSq : R) : complex128 :=
  cadd128
    (burn_slab (fracPol1 θ) (psi01_deg θ) (RM1_radm2 θ) (deltaRM1_radm2 θ)
       lamSq)
    (burn_slab (fracPol2 θ) (psi02_deg θ) (RM2_radm2 θ) (deltaRM2_radm2 θ)
       lamSq).

End m6_spec.

(** A slab whose ΔRM·λ² is not zero, in real numbers. *)
Definition burn_slab_real (p psi0_deg RM deltaRM lamSq : R) : complex :=
  let z := thin_component p psi0_deg (mean_RM RM deltaRM) lamSq in
  let s := sin (deltaRM * lamSq) / (deltaRM * lamSq) in
  Cx (s * real z) (s * imag z).

(** ** The keys of the models, of the converters and of the priors *)

(** The keys that the subscripts of [pDict] in the [m111] model name, in
    the order of their first evaluation. *)
Definition m111_model_keys : list string :=
  ["fracPol1"; "fracPol2"; "fracPol3"; "psi01_deg"; "RM1_radm2";
   "psi02_deg"; "RM2_radm2"; "psi03_deg"; "RM3_radm2"].

(** The same for the [m6] model. *)
Definition m6_model_keys : list string :=
  ["fracPol1"; "fracPol2"; "psi01_deg"; "deltaRM1_radm2"; "RM1_radm2";
   "psi02_deg"; "deltaRM2_radm2"; "RM2_radm2"].

(** The keys a converter assigns. *)
Definition m111_derived_keys : list string :=
  ["delta_RM1_RM2_radm2"; "delta_RM2_RM3_radm2"; "sum_p1_p2_p3"].

Definition m6_derived_keys : list string :=
  ["delta_RM1_RM2_radm2"; "sum_p1_p2"].

#[global] Instance kind_eq_dec : EqDecision bilby.kind.
Proof. solve_decision. Defined.

(** The keys of the priors of one kind, in the order of the dictionary. *)
Definition keys_of_kind (k : bilby.kind) (pd : bilby.PriorDict)
  : list string :=
  (filter (λ kp, bilby.prior_kind kp.2 = k) (bilby.items pd)).*1.

(** The contents of the mapping the [m111] converter returns, for the
    contents [d] of its argument. *)
Definition m111_converted (d : gmap string R) (rm1 rm2 rm3 p1 p2 p3 : R)
  : gmap string R :=
  <["sum_p1_p2_p3" := p1 + p2 + p3]>
    (<["delta_RM2_RM3_radm2" := rm2 - rm3]>
       (<["delta_RM1_RM2_radm2" := rm1 - rm2]> d)).

(** The contents of the mapping the [m6] converter returns, for the
    contents [d] of its argument. *)
Definition m6_converted (d : gmap string R) (rm1 rm2 p1 p2 : R)
  : gmap string R :=
  <["sum_p1_p2" := p1 + p2]> (<["delta_RM1_RM2_radm2" := rm1 - rm2]> d).

(** ** Example inputs *)

(** The scenario of the specification: fractions 0.1, 0.2, 0, all angles
    and rotation measures zero. *)
Definition m111_scenario : gmap string R :=
  <["fracPol1" := 0.1]> (<["fracPol2" := 0.2]> (<["fracPol3" := 0]>
  (<["psi01_deg" := 0]> (<["psi02_deg" := 0]> (<["psi03_deg" := 0]>
  (<["RM1_radm2" := 0]> (<["RM2_radm2" := 0]> (<["RM3_radm2" := 0]> ∅)))))))).

Definition m111_scenario_params : m111_spec.params :=
  m111_spec.Params 0.1 0.2 0 0 0 0 0 0 0.

(** One thin component among three. *)
Definition m111_single : gmap string R :=
  <["fracPol1" := 0.5]> (<["fracPol2" := 0]> (<["fracPol3" := 0]>
  (<["psi01_deg" := 30]> (<["psi02_deg" := 45]> (<["psi03_deg" := 60]>
  (<["RM1_radm2" := 10]> (<["RM2_radm2" := -20]> (<["RM3_radm2" := 7]> ∅)))))))).

Definition m111_single_params : m111_spec.params :=
  m111_spec.Params 0.5 0 0 30 45 60 10 (-20) 7.

(** A draw whose fractions sum to 1.5, and a heap that holds it. *)
Definition m111_overfull : gmap string R :=
  <["fracPol1" := 0.5]> (<["fracPol2" := 0.5]> (<["fracPol3" := 0.5]>
  (<["psi01_deg" := 0]> (<["psi02_deg" := 0]> (<["psi03_deg" := 0]>
  (<["RM1_radm2" := 30]> (<["RM2_radm2" := 20]> (<["RM3_radm2" := 10]> ∅)))))))).

Definition m111_overfull_params : m111_spec.params :=
  m111_spec.Params 0.5 0.5 0.5 0 0 0 30 20 10.

Definition m111_overfull_heap : heap := {[1%positive := m111_overfull]}.

(** A mapping with the keys that the converter of [m111] reads, and no
    others. *)
Definition m111_rm_and_fractions : gmap string R :=
  <["RM1_radm2" := 30]> (<["RM2_radm2" := 20]> (<["RM3_radm2" := 10]>
  (<["fracPol1" := 0.5]> (<["fracPol2" := 0.25]> (<["fracPol3" := 0.125]> ∅))))).

Definition m111_rm_and_fractions_heap : heap :=
  {[1%positive := m111_rm_and_fractions]}.

(** A mapping that already holds a value under a derived key. *)
Definition m111_stale : gmap string R :=
  <["sum_p1_p2_p3" := 5]> m111_scenario.

Definition m111_stale_heap : heap := {[1%positive := m111_stale]}.

(** Two slabs, the first of zero depth. *)
Definition m6_zero_depth : gmap string R :=
  <["fracPol1" := 0.3]> (<["fracPol2" := 0.2]>
  (<["psi01_deg" := 0]> (<["psi02_deg" := 90]>
  (<["RM1_radm2" := 50]> (<["RM2_radm2" := -50]>
  (<["deltaRM1_radm2" := 0]> (<["deltaRM2_radm2" := 10]> ∅))))))).

Definition m6_zero_depth_params : m6_spec.params :=
  m6_spec.Params 0.3 0.2 0 90 50 (-50) 0 10.

(** ** Vocabulary of the further properties *)

(** The first key of [keys] that the mapping [d] lacks. *)
Fixpoint first_missing (keys : list string) (d : gmap string R)
  : option string :=
  match keys with
  | [] => None
  | key :: keys' =>
      match d !! key with
      | Some _ => first_missing keys' d
      | None => Some key
      end
  end.

(** The keys that the subscripts of [parameters] in the [m111] converter
    name, in the order of their first evaluation. *)
Definition m111_converter_keys : list string :=
  ["RM1_radm2"; "RM2_radm2"; "RM3_radm2"; "fracPol1"; "fracPol2"; "fracPol3"].

(** The same for the [m6] converter. *)
Definition m6_converter_keys : list string :=
  ["RM1_radm2"; "RM2_radm2"; "fracPol1"; "fracPol2"].

(** The modulus of a complex number ([np.abs]). *)
Definition cabs (z : complex) : R :=
  sqrt (real z * real z + imag z * imag z).

(** Two slabs of positive depth. *)
Definition m6_two_slabs : gmap string R :=
  <["fracPol1" := 0.3]> (<["fracPol2" := 0.2]>
  (<["psi01_deg" := 10]> (<["psi02_deg" := 90]>
  (<["RM1_radm2" := 50]> (<["RM2_radm2" := -50]>
  (<["deltaRM1_radm2" := 20]> (<["deltaRM2_radm2" := 10]> ∅))))))).

Definition m6_two_slabs_params : m6_spec.params :=
  m6_spec.Params 0.3 0.2 10 90 50 (-50) 20 10.

(** The draw [θ] with the intrinsic angles turned by [delta_deg]. *)
Definition m111_rotate (delta_deg : R) (θ : m111_spec.params)
  : m111_spec.params :=
  m111_spec.Params
    (m111_spec.fracPol1 θ) (m111_spec.fracPol2 θ) (m111_spec.fracPol3 θ)
    (m111_spec.psi01_deg θ + delta_deg) (m111_spec.psi02_deg θ + delta_deg)
    (m111_spec.psi03_deg θ + delta_deg)
    (m111_spec.RM1_radm2 θ) (m111_spec.RM2_radm2 θ) (m111_spec.RM3_radm2 θ).

(** The draw [θ] with the components 1 and 2 exchanged. *)
Definition m111_swap12 (θ : m111_spec.params) : m111_spec.params :=
  m111_spec.Params
    (m111_spec.fracPol2 θ) (m111_spec.fracPol1 θ) (m111_spec.fracPol3 θ)
    (m111_spec.psi02_deg θ) (m111_spec.psi01_deg θ) (m111_spec.psi03_deg θ)
    (m111_spec.RM2_radm2 θ) (m111_spec.RM1_radm2 θ) (m111_spec.RM3_radm2 θ).

(** The draw [θ] with the components 2 and 3 exchanged. *)
Definition m111_swap23 (θ : m111_spec.params) : m111_spec.params :=
  m111_spec.Params
    (m111_spec.fracPol1 θ) (m111_spec.fracPol3 θ) (m111_spec.fracPol2 θ)
    (m111_spec.psi01_deg θ) (m111_spec.psi03_deg θ) (m111_spec.psi02_deg θ)
    (m111_spec.RM1_radm2 θ) (m111_spec.RM3_radm2 θ) (m111_spec.RM2_radm2 θ).

(** The draw [θ] with the two slabs exchanged. *)
Definition m6_swap12 (θ : m6_spec.params) : m6_spec.params :=
  m6_spec.Params
    (m6_spec.fracPol2 θ) (m6_spec.fracPol1 θ)
    (m6_spec.psi02_deg θ) (m6_spec.psi01_deg θ)
    (m6_spec.RM2_radm2 θ) (m6_spec.RM1_radm2 θ)
    (m6_spec.deltaRM2_radm2 θ) (m6_spec.deltaRM1_radm2 θ).

(** Every value that the mapping [d] holds under the key of a Uniform
    prior of [pd] lies within the bounds of that prior. *)
Definition within_uniform_bounds (pd : bilby.PriorDict) (d : gmap string R)
  : Prop :=
  ∀ key p v,
    bilby.get pd key = Some p → bilby.prior_kind p = bilby.Uniform →
    d !! key = Some v → bilby.in_bounds p v.

(** The draw of the m6 example with its slabs exchanged. *)
Definition m6_two_slabs_swapped : gmap string R :=
  <["fracPol1" := 0.2]> (<["fracPol2" := 0.3]>
  (<["psi01_deg" := 90]> (<["psi02_deg" := 10]>
  (<["RM1_radm2" := -50]> (<["RM2_radm2" := 50]>
  (<["deltaRM1_radm2" := 10]> (<["deltaRM2_radm2" := 20]> ∅))))))).

(** One slab, and a second one of zero amplitude and zero depth. *)
Definition m6_one_slab : gmap string R :=
  <["fracPol1" := 0.3]> (<["fracPol2" := 0]>
  (<["psi01_deg" := 10]> (<["psi02_deg" := 0]>
  (<["RM1_radm2" := 50]> (<["RM2_radm2" := 0]>
  (<["deltaRM1_radm2" := 20]> (<["deltaRM2_radm2" := 0]> ∅))))))).

Definition m6_one_slab_params : m6_spec.params :=
  m6_spec.Params 0.3 0 10 0 50 0 20 0.

(** The draw [m111_single] with every intrinsic angle turned by 15
    degrees. *)
(** Three components, and the same with the first two exchanged. *)
Definition m111_three : gmap string R :=
  <["fracPol1" := 0.1]> (<["fracPol2" := 0.2]> (<["fracPol3" := 0.4]>
  (<["psi01_deg" := 30]> (<["psi02_deg" := 45]> (<["psi03_deg" := 60]>
  (<["RM1_radm2" := 10]> (<["RM2_radm2" := -20]> (<["RM3_radm2" := 7]> ∅)))))))).

Definition m111_three_params : m111_spec.params :=
  m111_spec.Params 0.1 0.2 0.4 30 45 60 10 (-20) 7.

Definition m111_three_swapped : gmap string R :=
  <["fracPol1" := 0.2]> (<["fracPol2" := 0.1]> (<["fracPol3" := 0.4]>
  (<["psi01_deg" := 45]> (<["psi02_deg" := 30]> (<["psi03_deg" := 60]>
  (<["RM1_radm2" := -20]> (<["RM2_radm2" := 10]> (<["RM3_radm2" := 7]> ∅)))))))).

Definition m111_single_turned : gmap string R :=
  <["psi01_deg" := 30 + 15]> (<["psi02_deg" := 45 + 15]>
  (<["psi03_deg" := 60 + 15]> m111_single)).

(** The components of a draw: fraction, intrinsic angle and rotation
    measure of each. *)
Definition m111_components (θ : m111_spec.params) : list (R * R * R) :=
  [(m111_spec.fracPol1 θ, m111_spec.psi01_deg θ, m111_spec.RM1_radm2 θ);
   (m111_spec.fracPol2 θ, m111_spec.psi02_deg θ, m111_spec.RM2_radm2 θ);
   (m111_spec.fracPol3 θ, m111_spec.psi03_deg θ, m111_spec.RM3_radm2 θ)].

(** Exchange the components 1 and 2 unless [RM2_radm2 <= RM1_radm2]. *)
Definition m111_order12 (θ : m111_spec.params) : m111_spec.params :=
  if Rle_dec (m111_spec.RM2_radm2 θ) (m111_spec.RM1_radm2 θ)
  then θ else m111_swap12 θ.

(** Exchange the components 2 and 3 unless [RM3_radm2 <= RM2_radm2]. *)
Definition m111_order23 (θ : m111_spec.params) : m111_spec.params :=
  if Rle_dec (m111_spec.RM3_radm2 θ) (m111_spec.RM2_radm2 θ)
  then θ else m111_swap23 θ.

(** The draw with its components in descending order of rotation
    measure. *)
Definition m111_descending (θ : m111_spec.params) : m111_spec.params :=
  m111_order12 (m111_order23 (m111_order12 θ)).

(** The draw [m111_single] with its components in descending order of
    rotation measure. *)
Definition m111_single_descending : gmap string R :=
  <["fracPol1" := 0.5]> (<["fracPol2" := 0]> (<["fracPol3" := 0]>
  (<["psi01_deg" := 30]> (<["psi02_deg" := 60]> (<["psi03_deg" := 45]>
  (<["RM1_radm2" := 10]> (<["RM2_radm2" := 7]> (<["RM3_radm2" := -20]> ∅)))))))).

(** ** Lemmas on the array operations *)

Section arrays.
Context {A B C D : Type}.

Lemma zip_with_fmap_same (f : B → C → D) (g : A → B) (h : A → C) (l : list A) :
  zip_with f (g <$> l) (h <$> l) = (λ x, f (g x) (h x)) <$> l.
Proof. induction l as [|x l IH]; csimpl; [done | by f_equal]. Qed.

End arrays.

Lemma complex_eq (a b c d : R) : a = c → b = d → Cx a b = Cx c d.
Proof. by intros -> ->. Qed.

(** What the code of the [m111] model computes for one sample agrees with
    the formula. *)
Lemma thin_component_code (p psi rm l : R) :
  cmul (of_real (p * 1)) (cexp (cmul two_j (of_real (radians psi + rm * l))))
  = thin_component p psi rm l.
Proof.
  unfold thin_component, cis, cmul, cexp, two_j, of_real; simpl.
  replace (0 * (radians psi + rm * l) - 2 * 0) with 0 by ring.
  replace (0 * 0 + 2 * (radians psi + rm * l))
    with (2 * (radians psi + rm * l)) by ring.
  rewrite exp_0. apply complex_eq; ring.
Qed.

Ltac np_fuse :=
  unfold np.add, np.add128, np.div_cr, np.mul_rc, np.mul_cr, np.exp, np.sin,
    np.csmul, np.sadd, np.smul, np.ones_like;
  rewrite <- ?list_fmap_compose;
  rewrite ?zip_with_fmap_same;
  apply list_fmap_ext; intros _ ? _; unfold compose; cbn beta.

Lemma m111_model_run (pDict : gmap string R) (θ : m111_spec.params)
    (lamSqArr_m2 : list R) :
  m111_spec.holds pDict θ →
  m111.model pDict lamSqArr_m2 = Ok (m111_spec.spectrum θ <$> lamSqArr_m2).
Proof.
  intros (H1 & H2 & H3 & H4 & H5 & H6 & H7 & H8 & H9).
  unfold m111.model, getitem.
  rewrite H1, H2, H3, H4, H5, H6, H7, H8, H9. simpl. f_equal.
  np_fuse.
  by rewrite !thin_component_code.
Qed.

(** The scenario of the specification: the amplitudes add up, all phases
    being zero. *)
Example m111_scenario_value : m111.model m111_scenario [0] = Ok [Cx 0.3 0].
Proof.
  rewrite (m111_model_run _ m111_scenario_params)
    by (repeat split; reflexivity).
  simpl. do 2 f_equal.
  unfold m111_spec.spectrum, thin_component, cis, cadd; simpl.
  replace (2 * (radians 0 + 0 * 0)) with 0 by (unfold radians; ring).
  rewrite cos_0, sin_0. apply complex_eq; lra.
Qed.

(** The mean rotation measure of a slab is not its [RM] parameter: with
    the latter in the phase the component differs. *)
Lemma mean_RM_is_not_RM :
  thin_component 1 0 (mean_RM 0 (PI / 2)) 1 ≠ thin_component 1 0 0 1.
Proof.
  intros H. apply (f_equal real) in H. simpl in H.
  unfold mean_RM, radians in H.
  replace (2 * (0 * (PI / 180) + (0 + PI / 2 / 2) * 1)) with (PI / 2) in H
    by field.
  replace (2 * (0 * (PI / 180) + 0 * 1)) with 0 in H by ring.
  rewrite cos_PI2, cos_0 in H. lra.
Qed.

(** *** The complex division *)

(** The divisors of the two regular branches of [cdiv] are not zero, so
    their quotients are finite. *)
Lemma cdiv_divisors_nonzero (in2 : complex) :
  (Rabs (real in2) >= Rabs (imag in2) → Rabs (real in2) ≠ 0 →
     real in2 ≠ 0 ∧ real in2 + imag in2 * (imag in2 / real in2) ≠ 0) ∧
  (¬ Rabs (real in2) >= Rabs (imag in2) →
     imag in2 ≠ 0 ∧ imag in2 + real in2 * (real in2 / imag in2) ≠ 0).
Proof.
  destruct in2 as [c d]; simpl. split.
  - intros _ Hc.
    assert (c ≠ 0) as Hc0 by (intros ->; apply Hc, Rabs_R0).
    split; [done |]. intros H.
    assert (c * c + d * d = 0) as Hsq.
    { replace (c * c + d * d) with (c * (c + d * (d / c))) by (by field).
      rewrite H. ring. }
    nra.
  - intros Hlt.
    assert (d ≠ 0) as Hd0.
    { intros ->. apply Hlt. rewrite Rabs_R0. apply Rle_ge, Rabs_pos. }
    split; [done |]. intros H.
    assert (d * d + c * c = 0) as Hsq.
    { replace (d * d + c * c) with (d * (d + c * (c / d))) by (by field).
      rewrite H. ring. }
    nra.
Qed.

(** Division of a complex value by a real one. *)
Lemma cdiv_of_real (z : complex) (x : R) :
  cdiv z (of_real x) =
    if Req_dec_T x 0 then C128 (fdiv_zero (real z)) (fdiv_zero (imag z))
    else C128 (Finite (real z / x)) (Finite (imag z / x)).
Proof.
  unfold cdiv, of_real; simpl.
  destruct (Rge_dec (Rabs x) (Rabs 0)) as [_ | Hn].
  - destruct (Req_dec_T (Rabs x) 0) as [Ha | Ha], (Req_dec_T x 0) as [Hx | Hx].
    + done.
    + exfalso. by apply (Rabs_no_R0 x).
    + exfalso. apply Ha. rewrite Hx. apply Rabs_R0.
    + f_equal; f_equal; by field.
  - exfalso. apply Hn. rewrite Rabs_R0. apply Rle_ge, Rabs_pos.
Qed.

Lemma fdiv_zero_0 : fdiv_zero 0 = NaN.
Proof. unfold fdiv_zero. by destruct (Req_dec_T 0 0). Qed.

(** What the code of the [m6] model computes for one slab and one sample
    agrees with the formula. *)
Lemma burn_slab_code (p psi rm drm l : R) :
  cdiv (cmul (cmul (of_real (p * 1))
                (cexp (cmul two_j
                         (of_real (radians psi + (0.5 * drm + rm) * l)))))
          (of_real (sin (drm * l))))
       (of_real (drm * l))
  = burn_slab p psi rm drm l.
Proof.
  rewrite thin_component_code, cdiv_of_real.
  replace (0.5 * drm + rm) with (mean_RM rm drm) by (unfold mean_RM; lra).
  unfold burn_slab, sinc_envelope, fdiv.
  destruct (thin_component p psi (mean_RM rm drm) l) as [a b]; simpl.
  destruct (Req_dec_T (drm * l) 0) as [Hx | Hx].
  - rewrite Hx, sin_0.
    replace (a * 0 - b * 0) with 0 by ring.
    replace (a * 0 + b * 0) with 0 by ring.
    by rewrite fdiv_zero_0.
  - simpl. set (x := drm * l) in *. clearbody x.
    f_equal; f_equal; by field.
Qed.

Lemma m6_model_run (pDict : gmap string R) (θ : m6_spec.params)
    (lamSqArr_m2 : list R) :
  m6_spec.holds pDict θ →
  m6.model pDict lamSqArr_m2 = Ok (m6_spec.spectrum θ <$> lamSqArr_m2).
Proof.
  intros (H1 & H2 & H3 & H4 & H5 & H6 & H7 & H8).
  unfold m6.model, getitem.
  rewrite H1, H2, H3, H4, H5, H6, H7, H8. simpl. f_equal.
  np_fuse.
  by rewrite !burn_slab_code.
Qed.

(** *** The heap *)

Lemma contents_lookup (h : heap) (l : loc) (d : gmap string R) :
  h !! l = Some d → contents h l = d.
Proof. intros H. unfold contents. by rewrite lookup_total_alt, H. Qed.

Lemma contents_insert_eq (h : heap) (l : loc) (d : gmap string R) :
  contents (<[l := d]> h) l = d.
Proof. unfold contents. apply lookup_total_insert_eq. Qed.

Lemma contents_insert_ne (h : heap) (l l' : loc) (d : gmap string R) :
  l ≠ l' → contents (<[l := d]> h) l' = contents h l'.
Proof. intros H. unfold contents. by apply lookup_total_insert_ne. Qed.

(** A newly allocated location is none of the existing objects. *)
Lemma fresh_loc_ne (h : heap) (l : loc) (d : gmap string R) :
  h !! l = Some d → fresh (dom h) ≠ l.
Proof.
  intros H Heq. apply (is_fresh (dom h)). rewrite Heq.
  apply elem_of_dom. by exists d.
Qed.

Lemma fresh_loc_None (h : heap) : h !! fresh (dom h) = None.
Proof. apply not_elem_of_dom, is_fresh. Qed.

Ltac py_step :=
  unfold mbind, py_bind, mret, py_ret, dict_copy, dict_getitem, dict_setitem,
    getitem;
  rewrite ?insert_insert_eq, ?contents_insert_eq, ?contents_insert_ne by done.

Lemma m111_converter_run (h : heap) (parameters : loc) (d : gmap string R)
    (rm1 rm2 rm3 p1 p2 p3 : R) :
  h !! parameters = Some d →
  d !! "RM1_radm2" = Some rm1 → d !! "RM2_radm2" = Some rm2 →
  d !! "RM3_radm2" = Some rm3 →
  d !! "fracPol1" = Some p1 → d !! "fracPol2" = Some p2 →
  d !! "fracPol3" = Some p3 →
  m111.converter parameters h =
    (Ok (fresh (dom h)),
     <[fresh (dom h) := m111_converted d rm1 rm2 rm3 p1 p2 p3]> h).
Proof.
  intros Hh H1 H2 H3 H4 H5 H6.
  pose proof (fresh_loc_ne _ _ _ Hh) as Hne.
  unfold m111.converter. py_step. cbn.
  repeat (rewrite ?contents_insert_eq, ?contents_insert_ne,
            ?(contents_lookup _ _ _ Hh), ?H1, ?H2, ?H3, ?H4, ?H5, ?H6,
            ?insert_insert_eq by done; cbn).
  done.
Qed.

Lemma m6_converter_run (h : heap) (parameters : loc) (d : gmap string R)
    (rm1 rm2 p1 p2 : R) :
  h !! parameters = Some d →
  d !! "RM1_radm2" = Some rm1 → d !! "RM2_radm2" = Some rm2 →
  d !! "fracPol1" = Some p1 → d !! "fracPol2" = Some p2 →
  m6.converter parameters h =
    (Ok (fresh (dom h)), <[fresh (dom h) := m6_converted d rm1 rm2 p1 p2]> h).
Proof.
  intros Hh H1 H2 H3 H4.
  pose proof (fresh_loc_ne _ _ _ Hh) as Hne.
  unfold m6.converter. py_step. cbn.
  repeat (rewrite ?contents_insert_eq, ?contents_insert_ne,
            ?(contents_lookup _ _ _ Hh), ?H1, ?H2, ?H3, ?H4,
            ?insert_insert_eq by done; cbn).
  done.
Qed.

(** ** The model functions *)

Lemma burn_slab_finite (p psi rm drm l : R) :
  drm * l ≠ 0 →
  burn_slab p psi rm drm l = of_complex (burn_slab_real p psi rm drm l).
Proof.
  intros Hx. unfold burn_slab, burn_slab_real, sinc_envelope, fdiv.
  by destruct (Req_dec_T (drm * l) 0).
Qed.

(** C1: for every mapping with the eight keys of the [m6] model and every
    wavelength-squared sequence, the model returns, at each sample, the sum
    over the two components of [fracPol_k · exp(2i·(psi0_k in radians +
    mean rotation measure_k · λ²))] multiplied by the sinc envelope
    [sin(ΔRM_k·λ²)/(ΔRM_k·λ²)]; the mean rotation measure of a slab is
    [RM_k + ΔRM_k/2].  Where no [ΔRM_k·λ²] is zero this is the formula over
    the reals. *)
Theorem m6_model_formula (pDict : gmap string R) (θ : m6_spec.params)
    (lamSqArr_m2 : list R) :
  m6_spec.holds pDict θ →
  m6.model pDict lamSqArr_m2 = Ok (m6_spec.spectrum θ <$> lamSqArr_m2) ∧
  ∀ lamSq : R,
    m6_spec.deltaRM1_radm2 θ * lamSq ≠ 0 →
    m6_spec.deltaRM2_radm2 θ * lamSq ≠ 0 →
    m6_spec.spectrum θ lamSq =
      of_complex
        (cadd
           (burn_slab_real (m6_spec.fracPol1 θ) (m6_spec.psi01_deg θ)
              (m6_spec.RM1_radm2 θ) (m6_spec.deltaRM1_radm2 θ) lamSq)
           (burn_slab_real (m6_spec.fracPol2 θ) (m6_spec.psi02_deg θ)
              (m6_spec.RM2_radm2 θ) (m6_spec.deltaRM2_radm2 θ) lamSq)).
Proof.
  intros Hθ. split; [by apply m6_model_run |].
  intros l H1 H2. unfold m6_spec.spectrum.
  by rewrite !burn_slab_finite.
Qed.

Lemma m6_model_formula_witness :
  m6.model m6_zero_depth [0; 1] =
    Ok (m6_spec.spectrum m6_zero_depth_params <$> [0; 1]).
Proof.
  apply (m6_model_formula m6_zero_depth m6_zero_depth_params [0; 1]).
  repeat split; reflexivity.
Defined.

(** C2: for every mapping with the nine keys of the [m111] model and every
    wavelength-squared sequence, the model returns, at each sample, the sum
    over the three components of [fracPol_k · exp(i·2·(psi0_k converted to
    radians + RM_k·λ²))], with no depolarization envelope. *)
Theorem m111_model_formula (pDict : gmap string R) (θ : m111_spec.params)
    (lamSqArr_m2 : list R) :
  m111_spec.holds pDict θ →
  m111.model pDict lamSqArr_m2 = Ok (m111_spec.spectrum θ <$> lamSqArr_m2).
Proof. apply m111_model_run. Qed.

Lemma m111_model_formula_witness :
  m111.model m111_scenario [0] =
    Ok (m111_spec.spectrum m111_scenario_params <$> [0]).
Proof.
  apply (m111_model_formula m111_scenario m111_scenario_params [0]).
  repeat split; reflexivity.
Defined.

Lemma cadd128_nan_l (w : complex128) : cadd128 (C128 NaN NaN) w = C128 NaN NaN.
Proof. by destruct w as [[] []]. Qed.

Lemma cadd128_nan_r (z : complex128) : cadd128 z (C128 NaN NaN) = C128 NaN NaN.
Proof. by destruct z as [[] []]. Qed.

Lemma burn_slab_nan (p psi rm drm l : R) :
  drm * l = 0 → burn_slab p psi rm drm l = C128 NaN NaN.
Proof.
  intros Hx. unfold burn_slab, sinc_envelope, fdiv.
  rewrite Hx, sin_0. destruct (Req_dec_T 0 0) as [_ | Hn]; [| done].
  by rewrite fdiv_zero_0.
Qed.

(** C3: for every mapping with the keys of the [m6] model and every
    wavelength-squared sequence with a sample where [ΔRM_k·λ²] is zero for a
    component [k], the division of the sinc term at that sample is a division
    of zero by zero, the returned spectrum holds NaN at that position, and the
    model raises no exception. *)
Theorem m6_zero_sinc_argument_nan (pDict : gmap string R)
    (θ : m6_spec.params) (lamSqArr_m2 : list R) (i : nat) (lamSq : R) :
  m6_spec.holds pDict θ →
  lamSqArr_m2 !! i = Some lamSq →
  m6_spec.deltaRM1_radm2 θ * lamSq = 0 ∨
    m6_spec.deltaRM2_radm2 θ * lamSq = 0 →
  (∃ quArr : list complex128,
     m6.model pDict lamSqArr_m2 = Ok quArr ∧
     quArr !! i = Some (C128 NaN NaN)) ∧
  (∀ (quArr_k : complex) (x : R), x = 0 →
     cmul quArr_k (of_real (sin x)) = Cx 0 0 ∧ of_real x = Cx 0 0 ∧
     cdiv (cmul quArr_k (of_real (sin x))) (of_real x) = C128 NaN NaN).
Proof.
  intros Hθ Hi Hx. split.
  - exists (m6_spec.spectrum θ <$> lamSqArr_m2). split.
    + by apply m6_model_run.
    + rewrite list_lookup_fmap, Hi. simpl. f_equal.
      unfold m6_spec.spectrum. destruct Hx as [Hx | Hx].
      * rewrite (burn_slab_nan _ _ _ _ _ Hx). apply cadd128_nan_l.
      * rewrite (burn_slab_nan _ _ _ _ _ Hx). apply cadd128_nan_r.
  - intros [a b] x ->. rewrite sin_0.
    assert (cmul (Cx a b) (of_real 0) = Cx 0 0) as Hz.
    { unfold cmul, of_real; simpl. apply complex_eq; ring. }
    rewrite Hz. split; [done |]. split; [done |].
    rewrite cdiv_of_real. simpl.
    destruct (Req_dec_T 0 0) as [_ | Hn]; [| done].
    by rewrite fdiv_zero_0.
Qed.

Lemma m6_zero_sinc_argument_nan_witness :
  ∃ quArr : list complex128,
    m6.model m6_zero_depth [0.5; 2] = Ok quArr ∧
    quArr !! 1%nat = Some (C128 NaN NaN).
Proof.
  refine (proj1 (m6_zero_sinc_argument_nan m6_zero_depth m6_zero_depth_params
                   [0.5; 2] 1 2 _ _ _)).
  - repeat split; reflexivity.
  - reflexivity.
  - left. simpl. apply Rmult_0_l.
Defined.

(** C4: for every mapping with the keys of the model and every non-empty
    wavelength-squared sequence of length N, the [m6] and the [m111] model
    both return a complex sequence of length N. *)
Theorem model_length :
  (∀ (pDict : gmap string R) (θ : m6_spec.params) (lamSqArr_m2 : list R),
     m6_spec.holds pDict θ → lamSqArr_m2 ≠ [] →
     ∃ quArr, m6.model pDict lamSqArr_m2 = Ok quArr ∧
              length quArr = length lamSqArr_m2) ∧
  (∀ (pDict : gmap string R) (θ : m111_spec.params) (lamSqArr_m2 : list R),
     m111_spec.holds pDict θ → lamSqArr_m2 ≠ [] →
     ∃ quArr, m111.model pDict lamSqArr_m2 = Ok quArr ∧
              length quArr = length lamSqArr_m2).
Proof.
  split; intros pDict θ lam Hθ _.
  - exists (m6_spec.spectrum θ <$> lam).
    split; [by apply m6_model_run | apply length_fmap].
  - exists (m111_spec.spectrum θ <$> lam).
    split; [by apply m111_model_run | apply length_fmap].
Qed.

Lemma model_length_witness :
  (∃ quArr, m6.model m6_zero_depth [0.5; 2; 3] = Ok quArr ∧
            length quArr = 3%nat) ∧
  (∃ quArr, m111.model m111_single [0.5; 2; 3] = Ok quArr ∧
            length quArr = 3%nat).
Proof.
  split.
  - apply (proj1 model_length m6_zero_depth m6_zero_depth_params [0.5; 2; 3]).
    + repeat split; reflexivity.
    + discriminate.
  - apply (proj2 model_length m111_single m111_single_params [0.5; 2; 3]).
    + repeat split; reflexivity.
    + discriminate.
Defined.

(** C7: for every mapping with [fracPol2 = 0] and [fracPol3 = 0] and every
    wavelength-squared sequence, the [m111] model returns the single thin
    component [fracPol1 · exp(2i·(psi01_deg in radians + RM1_radm2·λ²))] at
    every sample, whatever the angles and rotation measures of the components
    2 and 3. *)
Theorem m111_single_component (pDict : gmap string R) (θ : m111_spec.params)
    (lamSqArr_m2 : list R) :
  m111_spec.holds pDict θ →
  m111_spec.fracPol2 θ = 0 → m111_spec.fracPol3 θ = 0 →
  m111.model pDict lamSqArr_m2 =
    Ok (thin_component (m111_spec.fracPol1 θ) (m111_spec.psi01_deg θ)
          (m111_spec.RM1_radm2 θ) <$> lamSqArr_m2).
Proof.
  intros Hθ H2 H3. rewrite (m111_model_run _ _ _ Hθ). f_equal.
  apply list_fmap_ext. intros _ l _.
  unfold m111_spec.spectrum. rewrite H2, H3.
  unfold thin_component, cadd; simpl. apply complex_eq; ring.
Qed.

Lemma m111_single_component_witness :
  m111.model m111_single [0; 1] = Ok (thin_component 0.5 30 10 <$> [0; 1]).
Proof.
  apply (m111_single_component m111_single m111_single_params [0; 1]).
  - repeat split; reflexivity.
  - reflexivity.
  - reflexivity.
Defined.

(** *** The intrinsic angles *)

Lemma radians_180 : radians 180 = PI.
Proof. unfold radians. field. Qed.

Ltac model_lookups H :=
  unfold getitem;
  rewrite ?lookup_insert_eq, ?lookup_insert_ne by done;
  rewrite ?H;
  repeat (match goal with
          | |- context [?d !! ?k] =>
              destruct (d !! k); simpl; [| reflexivity]
          end).

(** ** The conversion functions and the priors *)

Ltac in_list :=
  repeat first [apply list_elem_of_here | apply list_elem_of_further].

Ltac not_in_list :=
  let H := fresh in
  intros H; repeat (apply elem_of_cons in H as [H | H]; [discriminate H |]);
  by apply elem_of_nil in H.

Lemma m111_converted_base (d : gmap string R) (rm1 rm2 rm3 p1 p2 p3 : R)
    (key : string) :
  key ∉ m111_derived_keys →
  m111_converted d rm1 rm2 rm3 p1 p2 p3 !! key = d !! key.
Proof.
  intros Hk. unfold m111_converted, m111_derived_keys in *.
  rewrite !lookup_insert_ne; [done | | |]; intros <-; apply Hk; in_list.
Qed.

Lemma m6_converted_base (d : gmap string R) (rm1 rm2 p1 p2 : R)
    (key : string) :
  key ∉ m6_derived_keys →
  m6_converted d rm1 rm2 p1 p2 !! key = d !! key.
Proof.
  intros Hk. unfold m6_converted, m6_derived_keys in *.
  rewrite !lookup_insert_ne; [done | |]; intros <-; apply Hk; in_list.
Qed.

(** Converting a converted mapping changes nothing. *)
Lemma m111_converted_idem (d : gmap string R) (rm1 rm2 rm3 p1 p2 p3 : R) :
  m111_converted (m111_converted d rm1 rm2 rm3 p1 p2 p3) rm1 rm2 rm3 p1 p2 p3
  = m111_converted d rm1 rm2 rm3 p1 p2 p3.
Proof.
  unfold m111_converted. apply map_eq. intros key.
  rewrite !lookup_insert. by repeat case_decide.
Qed.

Lemma m6_converted_idem (d : gmap string R) (rm1 rm2 p1 p2 : R) :
  m6_converted (m6_converted d rm1 rm2 p1 p2) rm1 rm2 p1 p2
  = m6_converted d rm1 rm2 p1 p2.
Proof.
  unfold m6_converted. apply map_eq. intros key.
  rewrite !lookup_insert. by repeat case_decide.
Qed.

(** The converter of [m111] on a full draw [θ]. *)
Lemma m111_converter_draw (h : heap) (parameters : loc) (d : gmap string R)
    (θ : m111_spec.params) :
  h !! parameters = Some d → m111_spec.holds d θ →
  m111.converter parameters h =
    (Ok (fresh (dom h)),
     <[fresh (dom h) :=
         m111_converted d (m111_spec.RM1_radm2 θ) (m111_spec.RM2_radm2 θ)
           (m111_spec.RM3_radm2 θ) (m111_spec.fracPol1 θ)
           (m111_spec.fracPol2 θ) (m111_spec.fracPol3 θ)]> h).
Proof.
  intros Hh (H1 & H2 & H3 & H4 & H5 & H6 & H7 & H8 & H9).
  by apply m111_converter_run.
Qed.

Lemma m6_converter_draw (h : heap) (parameters : loc) (d : gmap string R)
    (θ : m6_spec.params) :
  h !! parameters = Some d → m6_spec.holds d θ →
  m6.converter parameters h =
    (Ok (fresh (dom h)),
     <[fresh (dom h) :=
         m6_converted d (m6_spec.RM1_radm2 θ) (m6_spec.RM2_radm2 θ)
           (m6_spec.fracPol1 θ) (m6_spec.fracPol2 θ)]> h).
Proof.
  intros Hh (H1 & H2 & H3 & H4 & H5 & H6 & H7 & H8).
  by apply m6_converter_run.
Qed.

(** C5: the conversion function of the [m111] priors maps a draw to a
    mapping whose key [sum_p1_p2_p3] holds [fracPol1+fracPol2+fracPol3]; the
    Constraint declared for [sum_p1_p2_p3] has the bounds [0, 1], so for a
    draw whose fractions sum to 1.5 the derived value lies outside its
    declared bounds; the derived differences of rotation measures are
    declared with the bounds [0, 2200]. *)
Theorem m111_sum_constraint (h : heap) (parameters : loc)
    (d : gmap string R) (θ : m111_spec.params) :
  h !! parameters = Some d → m111_spec.holds d θ →
  (∃ converted h',
     bilby.conversion_function m111.priors parameters h = (Ok converted, h') ∧
     contents h' converted !! "sum_p1_p2_p3" =
       Some (m111_spec.fracPol1 θ + m111_spec.fracPol2 θ
             + m111_spec.fracPol3 θ) ∧
     contents h' converted !! "delta_RM1_RM2_radm2" =
       Some (m111_spec.RM1_radm2 θ - m111_spec.RM2_radm2 θ) ∧
     contents h' converted !! "delta_RM2_RM3_radm2" =
       Some (m111_spec.RM2_radm2 θ - m111_spec.RM3_radm2 θ)) ∧
  (∃ c, bilby.get m111.priors "sum_p1_p2_p3" = Some c ∧
        bilby.prior_kind c = bilby.Constraint ∧
        bilby.minimum c = 0 ∧ bilby.maximum c = 1 ∧
        (m111_spec.fracPol1 θ + m111_spec.fracPol2 θ + m111_spec.fracPol3 θ
           = 1.5 →
         ¬ bilby.in_bounds c
             (m111_spec.fracPol1 θ + m111_spec.fracPol2 θ
              + m111_spec.fracPol3 θ))) ∧
  (∀ key, key ∈ ["delta_RM1_RM2_radm2"; "delta_RM2_RM3_radm2"] →
     ∃ c, bilby.get m111.priors key = Some c ∧
          bilby.prior_kind c = bilby.Constraint ∧
          bilby.minimum c = 0 ∧ bilby.maximum c = 2200).
Proof.
  intros Hh Hθ. split; [| split].
  - eexists _, _. split; [by apply m111_converter_draw |].
    rewrite contents_insert_eq. unfold m111_converted.
    rewrite lookup_insert_eq.
    rewrite !lookup_insert_ne, !lookup_insert_eq by done.
    rewrite lookup_insert_ne, lookup_insert_eq by done. done.
  - eexists. split; [reflexivity |]. simpl.
    repeat split; try lra.
    intros Hsum. unfold bilby.in_bounds; simpl. lra.
  - intros key Hkey.
    repeat (apply elem_of_cons in Hkey as [-> | Hkey]);
      [| | by apply elem_of_nil in Hkey];
      (eexists; split; [reflexivity |]; simpl; repeat split; lra).
Qed.

Lemma m111_sum_constraint_witness :
  ∃ c, bilby.get m111.priors "sum_p1_p2_p3" = Some c ∧
       ¬ bilby.in_bounds c (0.5 + 0.5 + 0.5).
Proof.
  destruct (m111_sum_constraint m111_overfull_heap 1%positive m111_overfull
              m111_overfull_params)
    as (_ & (c & Hc & _ & _ & _ & Hout) & _).
  - reflexivity.
  - repeat split; reflexivity.
  - exists c. split; [exact Hc |]. apply Hout. simpl. lra.
Defined.

(** A call of a converter changes no object that the heap holds. *)
Lemma fresh_insert_frame (h : heap) (d' : gmap string R) (l : loc) :
  is_Some (h !! l) → <[fresh (dom h) := d']> h !! l = h !! l.
Proof.
  intros [d Hl]. apply lookup_insert_ne. by apply (fresh_loc_ne h l d).
Qed.

(** C6: each conversion function is pure and deterministic, and idempotent
    on the keys it adds.  Pure: a call returns a new mapping and changes no
    mapping that exists, the caller's included, and so does the second call.
    Deterministic: two calls on mappings with equal contents return mappings
    with equal contents.  Idempotent: converting its own output yields the
    same values for every derived constraint key.  The argument needs the
    keys the converter reads and no others. *)
Theorem converter_deterministic_idempotent :
  (∀ (h : heap) (parameters : loc) (d : gmap string R)
     (rm1 rm2 rm3 p1 p2 p3 : R),
     h !! parameters = Some d →
     d !! "RM1_radm2" = Some rm1 → d !! "RM2_radm2" = Some rm2 →
     d !! "RM3_radm2" = Some rm3 →
     d !! "fracPol1" = Some p1 → d !! "fracPol2" = Some p2 →
     d !! "fracPol3" = Some p3 →
     ∃ c1 h1 c2 h2,
       m111.converter parameters h = (Ok c1, h1) ∧
       (h !! c1 = None ∧ h1 !! parameters = Some d ∧
        ∀ l, is_Some (h !! l) → h1 !! l = h !! l) ∧
       m111.converter c1 h1 = (Ok c2, h2) ∧
       (h1 !! c2 = None ∧ h2 !! c1 = h1 !! c1 ∧
        ∀ l, is_Some (h1 !! l) → h2 !! l = h1 !! l) ∧
       (∀ key, key ∈ m111_derived_keys →
          is_Some (contents h1 c1 !! key) ∧
          contents h2 c2 !! key = contents h1 c1 !! key) ∧
       (∀ (h' : heap) (parameters' : loc),
          h' !! parameters' = Some d →
          ∃ c1' h1', m111.converter parameters' h' = (Ok c1', h1') ∧
                     contents h1' c1' = contents h1 c1)) ∧
  (∀ (h : heap) (parameters : loc) (d : gmap string R) (rm1 rm2 p1 p2 : R),
     h !! parameters = Some d →
     d !! "RM1_radm2" = Some rm1 → d !! "RM2_radm2" = Some rm2 →
     d !! "fracPol1" = Some p1 → d !! "fracPol2" = Some p2 →
     ∃ c1 h1 c2 h2,
       m6.converter parameters h = (Ok c1, h1) ∧
       (h !! c1 = None ∧ h1 !! parameters = Some d ∧
        ∀ l, is_Some (h !! l) → h1 !! l = h !! l) ∧
       m6.converter c1 h1 = (Ok c2, h2) ∧
       (h1 !! c2 = None ∧ h2 !! c1 = h1 !! c1 ∧
        ∀ l, is_Some (h1 !! l) → h2 !! l = h1 !! l) ∧
       (∀ key, key ∈ m6_derived_keys →
          is_Some (contents h1 c1 !! key) ∧
          contents h2 c2 !! key = contents h1 c1 !! key) ∧
       (∀ (h' : heap) (parameters' : loc),
          h' !! parameters' = Some d →
          ∃ c1' h1', m6.converter parameters' h' = (Ok c1', h1') ∧
                     contents h1' c1' = contents h1 c1)).
Proof.
  split.
  - intros h parameters d rm1 rm2 rm3 p1 p2 p3 Hh R1 R2 R3 P1 P2 P3.
    set (d1 := m111_converted d rm1 rm2 rm3 p1 p2 p3).
    set (c1 := fresh (dom h)). set (h1 := <[c1 := d1]> h).
    assert (h1 !! c1 = Some d1) as Hh1 by apply lookup_insert_eq.
    exists c1, h1, (fresh (dom h1)), (<[fresh (dom h1) := d1]> h1).
    split; [by apply m111_converter_run |].
    split; [| split; [| split; [| split]]].
    + split; [apply fresh_loc_None |].
      split; [| apply fresh_insert_frame].
      unfold h1, c1. rewrite fresh_insert_frame; eauto.
    + pose proof (m111_converted_idem d rm1 rm2 rm3 p1 p2 p3) as Hid.
      fold d1 in Hid. rewrite <- Hid at 1.
      apply m111_converter_run; [done | ..]; unfold d1;
        rewrite m111_converted_base; try done;
        unfold m111_derived_keys; not_in_list.
    + split; [apply fresh_loc_None |].
      split; [| apply fresh_insert_frame].
      apply fresh_insert_frame; eauto.
    + intros key Hkey. unfold h1. rewrite !contents_insert_eq.
      split; [| done]. unfold d1, m111_converted.
      repeat (apply elem_of_cons in Hkey as [-> | Hkey]);
        [| | | by apply elem_of_nil in Hkey];
        rewrite ?lookup_insert_eq, ?lookup_insert_ne by done;
        rewrite ?lookup_insert_eq, ?lookup_insert_ne by done; eauto.
    + intros h' parameters' Hh'. eexists _, _.
      split; [by apply m111_converter_run |].
      unfold h1. by rewrite !contents_insert_eq.
  - intros h parameters d rm1 rm2 p1 p2 Hh R1 R2 P1 P2.
    set (d1 := m6_converted d rm1 rm2 p1 p2).
    set (c1 := fresh (dom h)). set (h1 := <[c1 := d1]> h).
    assert (h1 !! c1 = Some d1) as Hh1 by apply lookup_insert_eq.
    exists c1, h1, (fresh (dom h1)), (<[fresh (dom h1) := d1]> h1).
    split; [by apply m6_converter_run |].
    split; [| split; [| split; [| split]]].
    + split; [apply fresh_loc_None |].
      split; [| apply fresh_insert_frame].
      unfold h1, c1. rewrite fresh_insert_frame; eauto.
    + pose proof (m6_converted_idem d rm1 rm2 p1 p2) as Hid.
      fold d1 in Hid. rewrite <- Hid at 1.
      apply m6_converter_run; [done | ..]; unfold d1;
        rewrite m6_converted_base; try done;
        unfold m6_derived_keys; not_in_list.
    + split; [apply fresh_loc_None |].
      split; [| apply fresh_insert_frame].
      apply fresh_insert_frame; eauto.
    + intros key Hkey. unfold h1. rewrite !contents_insert_eq.
      split; [| done]. unfold d1, m6_converted.
      repeat (apply elem_of_cons in Hkey as [-> | Hkey]);
        [| | by apply elem_of_nil in Hkey];
        rewrite ?lookup_insert_eq, ?lookup_insert_ne by done;
        rewrite ?lookup_insert_eq, ?lookup_insert_ne by done; eauto.
    + intros h' parameters' Hh'. eexists _, _.
      split; [by apply m6_converter_run |].
      unfold h1. by rewrite !contents_insert_eq.
Qed.

Lemma converter_deterministic_idempotent_witness :
  ∃ c1 h1 c2 h2,
    m111.converter 1%positive m111_rm_and_fractions_heap = (Ok c1, h1) ∧
    h1 !! 1%positive = Some m111_rm_and_fractions ∧
    m111.converter c1 h1 = (Ok c2, h2) ∧
    h2 !! c1 = h1 !! c1 ∧
    contents h2 c2 !! "sum_p1_p2_p3" = contents h1 c1 !! "sum_p1_p2_p3".
Proof.
  destruct (proj1 converter_deterministic_idempotent
              m111_rm_and_fractions_heap 1%positive m111_rm_and_fractions
              30 20 10 0.5 0.25 0.125)
    as (c1 & h1 & c2 & h2 & H1 & (_ & H2 & _) & H3 & (_ & H4 & _) & H5 & _);
    try reflexivity.
  exists c1, h1, c2, h2. repeat (split; [assumption |]).
  apply H5. unfold m111_derived_keys. in_list.
Defined.

(** ** The keys of the models and of the priors *)

(** The model raises nothing but a [KeyError] for one of its keys that
    the mapping lacks, and returns when the mapping has them all. *)
Lemma m111_model_outcome (pDict : gmap string R) (lamSqArr_m2 : list R) :
  (∃ quArr, m111.model pDict lamSqArr_m2 = Ok quArr ∧
            ∀ key, key ∈ m111_model_keys → is_Some (pDict !! key)) ∨
  (∃ key, m111.model pDict lamSqArr_m2 = Raise (KeyError key) ∧
          key ∈ m111_model_keys ∧ pDict !! key = None).
Proof.
  unfold m111.model, getitem, m111_model_keys.
  repeat (match goal with
          | |- context [pDict !! ?k] =>
              destruct (pDict !! k) eqn:?; simpl;
              [| right; eexists; split; [reflexivity |]; split;
                 [in_list | done]]
          end).
  left. eexists. split; [reflexivity |].
  intros key Hkey.
  repeat (apply elem_of_cons in Hkey as [-> | Hkey]; [by eexists |]).
  by apply elem_of_nil in Hkey.
Qed.

Lemma m6_model_outcome (pDict : gmap string R) (lamSqArr_m2 : list R) :
  (∃ quArr, m6.model pDict lamSqArr_m2 = Ok quArr ∧
            ∀ key, key ∈ m6_model_keys → is_Some (pDict !! key)) ∨
  (∃ key, m6.model pDict lamSqArr_m2 = Raise (KeyError key) ∧
          key ∈ m6_model_keys ∧ pDict !! key = None).
Proof.
  unfold m6.model, getitem, m6_model_keys.
  repeat (match goal with
          | |- context [pDict !! ?k] =>
              destruct (pDict !! k) eqn:?; simpl;
              [| right; eexists; split; [reflexivity |]; split;
                 [in_list | done]]
          end).
  left. eexists. split; [reflexivity |].
  intros key Hkey.
  repeat (apply elem_of_cons in Hkey as [-> | Hkey]; [by eexists |]).
  by apply elem_of_nil in Hkey.
Qed.

Lemma m111_uniform_keys :
  keys_of_kind bilby.Uniform m111.priors =
    ["fracPol1"; "fracPol2"; "fracPol3"; "psi01_deg"; "psi02_deg";
     "psi03_deg"; "RM1_radm2"; "RM2_radm2"; "RM3_radm2"].
Proof. reflexivity. Qed.

Lemma m111_constraint_keys :
  keys_of_kind bilby.Constraint m111.priors = m111_derived_keys.
Proof. reflexivity. Qed.

Lemma m6_uniform_keys :
  keys_of_kind bilby.Uniform m6.priors =
    ["fracPol1"; "fracPol2"; "psi01_deg"; "psi02_deg"; "RM1_radm2";
     "RM2_radm2"; "deltaRM1_radm2"; "deltaRM2_radm2"].
Proof. reflexivity. Qed.

Lemma m6_constraint_keys :
  keys_of_kind bilby.Constraint m6.priors = m6_derived_keys.
Proof. reflexivity. Qed.

(** The derived values are a function of the sampled parameters. *)
Lemma m111_constraints_determined (c : string) (h1 h2 : heap) (l1 l2 : loc)
    (d1 d2 : gmap string R) :
  c ∈ keys_of_kind bilby.Constraint m111.priors →
  h1 !! l1 = Some d1 → h2 !! l2 = Some d2 →
  (∀ key, key ∈ keys_of_kind bilby.Uniform m111.priors →
     is_Some (d1 !! key) ∧ d1 !! key = d2 !! key) →
  ∃ c1 h1' c2 h2' v,
    bilby.conversion_function m111.priors l1 h1 = (Ok c1, h1') ∧
    bilby.conversion_function m111.priors l2 h2 = (Ok c2, h2') ∧
    contents h1' c1 !! c = Some v ∧ contents h2' c2 !! c = Some v.
Proof.
  rewrite m111_uniform_keys, m111_constraint_keys.
  intros Hc Hh1 Hh2 Hagree.
  destruct (Hagree "RM1_radm2" ltac:(in_list)) as [[rm1 Hrm1] Erm1].
  destruct (Hagree "RM2_radm2" ltac:(in_list)) as [[rm2 Hrm2] Erm2].
  destruct (Hagree "RM3_radm2" ltac:(in_list)) as [[rm3 Hrm3] Erm3].
  destruct (Hagree "fracPol1" ltac:(in_list)) as [[p1 Hp1] Ep1].
  destruct (Hagree "fracPol2" ltac:(in_list)) as [[p2 Hp2] Ep2].
  destruct (Hagree "fracPol3" ltac:(in_list)) as [[p3 Hp3] Ep3].
  rewrite Hrm1 in Erm1. rewrite Hrm2 in Erm2. rewrite Hrm3 in Erm3.
  rewrite Hp1 in Ep1. rewrite Hp2 in Ep2. rewrite Hp3 in Ep3.
  simpl.
  rewrite (m111_converter_run h1 l1 d1 rm1 rm2 rm3 p1 p2 p3) by done.
  rewrite (m111_converter_run h2 l2 d2 rm1 rm2 rm3 p1 p2 p3) by done.
  unfold m111_derived_keys in Hc.
  repeat (apply elem_of_cons in Hc as [-> | Hc]);
    [| | | by apply elem_of_nil in Hc];
    eexists _, _, _, _, _; (split; [reflexivity |]);
    (split; [reflexivity |]); rewrite !contents_insert_eq;
    unfold m111_converted;
    split;
    rewrite ?lookup_insert_eq, ?lookup_insert_ne by done;
    rewrite ?lookup_insert_eq, ?lookup_insert_ne by done; reflexivity.
Qed.

Lemma m6_constraints_determined (c : string) (h1 h2 : heap) (l1 l2 : loc)
    (d1 d2 : gmap string R) :
  c ∈ keys_of_kind bilby.Constraint m6.priors →
  h1 !! l1 = Some d1 → h2 !! l2 = Some d2 →
  (∀ key, key ∈ keys_of_kind bilby.Uniform m6.priors →
     is_Some (d1 !! key) ∧ d1 !! key = d2 !! key) →
  ∃ c1 h1' c2 h2' v,
    bilby.conversion_function m6.priors l1 h1 = (Ok c1, h1') ∧
    bilby.conversion_function m6.priors l2 h2 = (Ok c2, h2') ∧
    contents h1' c1 !! c = Some v ∧ contents h2' c2 !! c = Some v.
Proof.
  rewrite m6_uniform_keys, m6_constraint_keys.
  intros Hc Hh1 Hh2 Hagree.
  destruct (Hagree "RM1_radm2" ltac:(in_list)) as [[rm1 Hrm1] Erm1].
  destruct (Hagree "RM2_radm2" ltac:(in_list)) as [[rm2 Hrm2] Erm2].
  destruct (Hagree "fracPol1" ltac:(in_list)) as [[p1 Hp1] Ep1].
  destruct (Hagree "fracPol2" ltac:(in_list)) as [[p2 Hp2] Ep2].
  rewrite Hrm1 in Erm1. rewrite Hrm2 in Erm2.
  rewrite Hp1 in Ep1. rewrite Hp2 in Ep2.
  simpl.
  rewrite (m6_converter_run h1 l1 d1 rm1 rm2 p1 p2) by done.
  rewrite (m6_converter_run h2 l2 d2 rm1 rm2 p1 p2) by done.
  unfold m6_derived_keys in Hc.
  repeat (apply elem_of_cons in Hc as [-> | Hc]);
    [| | by apply elem_of_nil in Hc];
    eexists _, _, _, _, _; (split; [reflexivity |]);
    (split; [reflexivity |]); rewrite !contents_insert_eq;
    unfold m6_converted;
    split;
    rewrite ?lookup_insert_eq, ?lookup_insert_ne by done;
    rewrite ?lookup_insert_eq, ?lookup_insert_ne by done; reflexivity.
Qed.

(** C9: for each model, every key the model function reads ([m111]:
    fracPol1..3, psi01_deg..psi03_deg, RM1_radm2..RM3_radm2; [m6]:
    fracPol1..2, psi01_deg..psi02_deg, RM1_radm2..RM2_radm2,
    deltaRM1_radm2..deltaRM2_radm2) has an entry in the priors of the model,
    a Uniform one; and the value of every declared Constraint parameter is
    a function of the sampled parameters, computed by the conversion
    function. *)
Theorem priors_cover_model :
  ((∀ pDict lamSqArr_m2 key,
      m111.model pDict lamSqArr_m2 = Raise (KeyError key) →
      key ∈ m111_model_keys) ∧
   (∀ pDict lamSqArr_m2 key,
      key ∈ m111_model_keys → pDict !! key = None →
      ∃ key', m111.model pDict lamSqArr_m2 = Raise (KeyError key')) ∧
   (∀ key, key ∈ m111_model_keys →
      key ∈ keys_of_kind bilby.Uniform m111.priors ∧
      is_Some (bilby.get m111.priors key)) ∧
   (∀ c h1 h2 l1 l2 (d1 d2 : gmap string R),
      c ∈ keys_of_kind bilby.Constraint m111.priors →
      h1 !! l1 = Some d1 → h2 !! l2 = Some d2 →
      (∀ key, key ∈ keys_of_kind bilby.Uniform m111.priors →
         is_Some (d1 !! key) ∧ d1 !! key = d2 !! key) →
      ∃ c1 h1' c2 h2' v,
        bilby.conversion_function m111.priors l1 h1 = (Ok c1, h1') ∧
        bilby.conversion_function m111.priors l2 h2 = (Ok c2, h2') ∧
        contents h1' c1 !! c = Some v ∧ contents h2' c2 !! c = Some v)) ∧
  ((∀ pDict lamSqArr_m2 key,
      m6.model pDict lamSqArr_m2 = Raise (KeyError key) →
      key ∈ m6_model_keys) ∧
   (∀ pDict lamSqArr_m2 key,
      key ∈ m6_model_keys → pDict !! key = None →
      ∃ key', m6.model pDict lamSqArr_m2 = Raise (KeyError key')) ∧
   (∀ key, key ∈ m6_model_keys →
      key ∈ keys_of_kind bilby.Uniform m6.priors ∧
      is_Some (bilby.get m6.priors key)) ∧
   (∀ c h1 h2 l1 l2 (d1 d2 : gmap string R),
      c ∈ keys_of_kind bilby.Constraint m6.priors →
      h1 !! l1 = Some d1 → h2 !! l2 = Some d2 →
      (∀ key, key ∈ keys_of_kind bilby.Uniform m6.priors →
         is_Some (d1 !! key) ∧ d1 !! key = d2 !! key) →
      ∃ c1 h1' c2 h2' v,
        bilby.conversion_function m6.priors l1 h1 = (Ok c1, h1') ∧
        bilby.conversion_function m6.priors l2 h2 = (Ok c2, h2') ∧
        contents h1' c1 !! c = Some v ∧ contents h2' c2 !! c = Some v)).
Proof.
  split; (split; [| split; [| split]]).
  - intros pDict lam key H.
    destruct (m111_model_outcome pDict lam)
      as [(q & Hq & _) | (k & Hk & Hin & _)]; congruence.
  - intros pDict lam key Hkey Hnone.
    destruct (m111_model_outcome pDict lam)
      as [(q & _ & Hall) | (k & Hk & _)]; [| by eexists].
    destruct (Hall key Hkey) as [v Hv]. congruence.
  - intros key Hkey. rewrite m111_uniform_keys. unfold m111_model_keys in Hkey.
    repeat (apply elem_of_cons in Hkey as [-> | Hkey];
            [split; [in_list | by eexists] |]).
    by apply elem_of_nil in Hkey.
  - intros. by eapply m111_constraints_determined.
  - intros pDict lam key H.
    destruct (m6_model_outcome pDict lam)
      as [(q & Hq & _) | (k & Hk & Hin & _)]; congruence.
  - intros pDict lam key Hkey Hnone.
    destruct (m6_model_outcome pDict lam)
      as [(q & _ & Hall) | (k & Hk & _)]; [| by eexists].
    destruct (Hall key Hkey) as [v Hv]. congruence.
  - intros key Hkey. rewrite m6_uniform_keys. unfold m6_model_keys in Hkey.
    repeat (apply elem_of_cons in Hkey as [-> | Hkey];
            [split; [in_list | by eexists] |]).
    by apply elem_of_nil in Hkey.
  - intros. by eapply m6_constraints_determined.
Qed.

Lemma priors_cover_model_witness :
  "psi02_deg" ∈ keys_of_kind bilby.Uniform m111.priors ∧
  is_Some (bilby.get m111.priors "psi02_deg").
Proof.
  apply (proj1 (proj2 (proj2 (proj1 priors_cover_model)))).
  unfold m111_model_keys. in_list.
Defined.

(** ** The converters and the caller's mapping *)

Ltac converter_cases Hh :=
  cbv beta iota zeta delta
    [mbind py_bind mret py_ret dict_copy dict_getitem dict_setitem getitem];
  repeat (rewrite ?contents_insert_eq, ?contents_insert_ne,
            ?(contents_lookup _ _ _ Hh), ?insert_insert_eq by done;
          repeat match goal with
                 | H : ?d !! ?k = _ |- context [?d !! ?k] => rewrite H
                 end;
          cbv beta iota;
          try match goal with
              | |- context [match ?d !! ?k with _ => _ end] =>
                  destruct (d !! k) eqn:?; cbv beta iota
              end).

(** The two outcomes of a call of the [m111] converter. *)
Lemma m111_converter_outcome (h : heap) (parameters : loc)
    (d : gmap string R) :
  h !! parameters = Some d →
  (∃ rm1 rm2 rm3 p1 p2 p3,
     (d !! "RM1_radm2" = Some rm1 ∧ d !! "RM2_radm2" = Some rm2 ∧
      d !! "RM3_radm2" = Some rm3 ∧ d !! "fracPol1" = Some p1 ∧
      d !! "fracPol2" = Some p2 ∧ d !! "fracPol3" = Some p3) ∧
     m111.converter parameters h =
       (Ok (fresh (dom h)),
        <[fresh (dom h) := m111_converted d rm1 rm2 rm3 p1 p2 p3]> h)) ∨
  (∃ e d', m111.converter parameters h =
             (Raise e, <[fresh (dom h) := d']> h)).
Proof.
  intros Hh. pose proof (fresh_loc_ne _ _ _ Hh) as Hne.
  unfold m111.converter. converter_cases Hh.
  all: simplify_eq;
    first [ by left; eexists _, _, _, _, _, _ | by right; eexists _, _ ].
Qed.

Lemma m6_converter_outcome (h : heap) (parameters : loc)
    (d : gmap string R) :
  h !! parameters = Some d →
  (∃ rm1 rm2 p1 p2,
     (d !! "RM1_radm2" = Some rm1 ∧ d !! "RM2_radm2" = Some rm2 ∧
      d !! "fracPol1" = Some p1 ∧ d !! "fracPol2" = Some p2) ∧
     m6.converter parameters h =
       (Ok (fresh (dom h)),
        <[fresh (dom h) := m6_converted d rm1 rm2 p1 p2]> h)) ∨
  (∃ e d', m6.converter parameters h =
             (Raise e, <[fresh (dom h) := d']> h)).
Proof.
  intros Hh. pose proof (fresh_loc_ne _ _ _ Hh) as Hne.
  unfold m6.converter. converter_cases Hh.
  all: simplify_eq;
    first [ by left; eexists _, _, _, _ | by right; eexists _, _ ].
Qed.

(** The converter assigns the derived keys: a value that the input holds
    under one of them is replaced. *)
Lemma converter_replaces_derived_key :
  ∃ converted h',
    m111.converter 1%positive m111_stale_heap = (Ok converted, h') ∧
    m111_stale !! "sum_p1_p2_p3" = Some 5 ∧
    contents h' converted !! "sum_p1_p2_p3" = Some (0.1 + 0.2 + 0) ∧
    contents h' converted !! "sum_p1_p2_p3" ≠ m111_stale !! "sum_p1_p2_p3".
Proof.
  eexists _, _. split.
  - apply (m111_converter_run m111_stale_heap 1%positive m111_stale
             0 0 0 0.1 0.2 0); reflexivity.
  - rewrite contents_insert_eq. unfold m111_converted.
    rewrite lookup_insert_eq.
    split; [reflexivity |]. split; [reflexivity |].
    change (m111_stale !! "sum_p1_p2_p3") with (Some 5).
    intros H. injection H as H. lra.
Qed.

(** C10, amended: a conversion function does not mutate its argument; it
    works on a copy, a new object; the caller's mapping, as every object of
    the heap, is unchanged after the call, whatever its outcome; and every
    key-value pair of the input whose key is not a derived constraint key is
    unchanged in the returned mapping, which holds the derived keys
    besides. *)
Theorem converter_frame :
  (∀ (h h' : heap) (parameters : loc) (d : gmap string R) (r : result loc),
     h !! parameters = Some d →
     m111.converter parameters h = (r, h') →
     h' !! parameters = Some d ∧
     (∀ l, is_Some (h !! l) → h' !! l = h !! l) ∧
     (∀ converted, r = Ok converted →
        h !! converted = None ∧
        (∀ key, key ∉ m111_derived_keys →
           contents h' converted !! key = d !! key) ∧
        (∀ key, key ∈ m111_derived_keys →
           is_Some (contents h' converted !! key)))) ∧
  (∀ (h h' : heap) (parameters : loc) (d : gmap string R) (r : result loc),
     h !! parameters = Some d →
     m6.converter parameters h = (r, h') →
     h' !! parameters = Some d ∧
     (∀ l, is_Some (h !! l) → h' !! l = h !! l) ∧
     (∀ converted, r = Ok converted →
        h !! converted = None ∧
        (∀ key, key ∉ m6_derived_keys →
           contents h' converted !! key = d !! key) ∧
        (∀ key, key ∈ m6_derived_keys →
           is_Some (contents h' converted !! key)))).
Proof.
  split; intros h h' parameters d r Hh Hrun.
  - assert (∀ l d', is_Some (h !! l) →
              <[fresh (dom h) := d']> h !! l = h !! l) as Hframe.
    { intros l d' [x Hx]. apply lookup_insert_ne.
      by apply (fresh_loc_ne _ _ x). }
    destruct (m111_converter_outcome h parameters d Hh)
      as [(rm1 & rm2 & rm3 & p1 & p2 & p3 & _ & Hok) | (e & d' & Herr)].
    + rewrite Hok in Hrun. injection Hrun as <- <-.
      split; [by rewrite Hframe | split; [by auto |]].
      intros converted [= <-]. split; [apply fresh_loc_None |].
      rewrite contents_insert_eq. split.
      * intros key Hkey. by apply m111_converted_base.
      * intros key Hkey. unfold m111_converted, m111_derived_keys in *.
        repeat (apply elem_of_cons in Hkey as [-> | Hkey]);
          [| | | by apply elem_of_nil in Hkey];
          rewrite ?lookup_insert_eq, ?lookup_insert_ne by done;
          rewrite ?lookup_insert_eq, ?lookup_insert_ne by done; eauto.
    + rewrite Herr in Hrun. injection Hrun as <- <-.
      split; [by rewrite Hframe | split; [by auto |]].
      intros converted [=].
  - assert (∀ l d', is_Some (h !! l) →
              <[fresh (dom h) := d']> h !! l = h !! l) as Hframe.
    { intros l d' [x Hx]. apply lookup_insert_ne.
      by apply (fresh_loc_ne _ _ x). }
    destruct (m6_converter_outcome h parameters d Hh)
      as [(rm1 & rm2 & p1 & p2 & _ & Hok) | (e & d' & Herr)].
    + rewrite Hok in Hrun. injection Hrun as <- <-.
      split; [by rewrite Hframe | split; [by auto |]].
      intros converted [= <-]. split; [apply fresh_loc_None |].
      rewrite contents_insert_eq. split.
      * intros key Hkey. by apply m6_converted_base.
      * intros key Hkey. unfold m6_converted, m6_derived_keys in *.
        repeat (apply elem_of_cons in Hkey as [-> | Hkey]);
          [| | by apply elem_of_nil in Hkey];
          rewrite ?lookup_insert_eq, ?lookup_insert_ne by done;
          rewrite ?lookup_insert_eq, ?lookup_insert_ne by done; eauto.
    + rewrite Herr in Hrun. injection Hrun as <- <-.
      split; [by rewrite Hframe | split; [by auto |]].
      intros converted [=].
Qed.

Lemma converter_frame_witness :
  ∃ converted h',
    m111.converter 1%positive m111_stale_heap = (Ok converted, h') ∧
    h' !! 1%positive = Some m111_stale ∧
    m111_stale_heap !! converted = None ∧
    contents h' converted !! "fracPol1" = m111_stale !! "fracPol1".
Proof.
  pose proof (m111_converter_run m111_stale_heap 1%positive m111_stale
                0 0 0 0.1 0.2 0 eq_refl eq_refl eq_refl eq_refl eq_refl
                eq_refl eq_refl) as Hok.
  destruct (proj1 converter_frame m111_stale_heap _ 1%positive m111_stale
              _ eq_refl Hok) as (Hsame & _ & Hnew).
  destruct (Hnew _ eq_refl) as (Hfresh & Hbase & _).
  eexists _, _. split; [exact Hok |]. split; [exact Hsame |].
  split; [exact Hfresh |]. apply Hbase.
  unfold m111_derived_keys. not_in_list.
Defined.

(** ** Further properties of the models *)

(** *** Missing keys *)

(** X1: each model raises [KeyError] for the first of its keys, in the
    order of evaluation, that the mapping lacks, whatever the
    wavelength-squared sequence, also an empty one; it returns when no key
    is missing. *)
Theorem model_first_missing_key (pDict : gmap string R)
    (lamSqArr_m2 : list R) :
  (∀ key, first_missing m111_model_keys pDict = Some key →
     m111.model pDict lamSqArr_m2 = Raise (KeyError key)) ∧
  (first_missing m111_model_keys pDict = None →
     ∃ quArr, m111.model pDict lamSqArr_m2 = Ok quArr) ∧
  (∀ key, first_missing m6_model_keys pDict = Some key →
     m6.model pDict lamSqArr_m2 = Raise (KeyError key)) ∧
  (first_missing m6_model_keys pDict = None →
     ∃ quArr, m6.model pDict lamSqArr_m2 = Ok quArr).
Proof.
  unfold m111.model, m6.model, getitem, m111_model_keys, m6_model_keys.
  simpl first_missing.
  repeat split.
  - repeat (match goal with
            | |- context [pDict !! ?k] => destruct (pDict !! k); simpl
            end);
      intros key Hkey; by simplify_eq.
  - repeat (match goal with
            | |- context [pDict !! ?k] => destruct (pDict !! k); simpl
            end);
      intros Hkey; simplify_eq; by eexists.
  - repeat (match goal with
            | |- context [pDict !! ?k] => destruct (pDict !! k); simpl
            end);
      intros key Hkey; by simplify_eq.
  - repeat (match goal with
            | |- context [pDict !! ?k] => destruct (pDict !! k); simpl
            end);
      intros Hkey; simplify_eq; by eexists.
Qed.

Lemma model_first_missing_key_witness :
  m111.model (delete "psi02_deg" (delete "RM3_radm2" m111_single)) [] =
    Raise (KeyError "psi02_deg") ∧
  m6.model (delete "deltaRM1_radm2" m6_zero_depth) [1; 2] =
    Raise (KeyError "deltaRM1_radm2").
Proof.
  split.
  - apply (proj1 (model_first_missing_key
                    (delete "psi02_deg" (delete "RM3_radm2" m111_single))
                    [])).
    reflexivity.
  - apply (proj1 (proj2 (proj2 (model_first_missing_key
                    (delete "deltaRM1_radm2" m6_zero_depth) [1; 2])))).
    reflexivity.
Defined.

Ltac converter_raise Hh :=
  cbv beta iota zeta delta
    [mbind py_bind mret py_ret dict_copy dict_getitem dict_setitem getitem];
  repeat (rewrite ?contents_insert_eq, ?contents_insert_ne,
            ?(contents_lookup _ _ _ Hh), ?insert_insert_eq by done;
          repeat match goal with
                 | H : ?d !! ?k = _ |- context [?d !! ?k] => rewrite H
                 end;
          cbv beta iota);
  by eexists.

(** X2: a converter raises [KeyError] for the first of the rotation
    measure and fraction keys, in the order of evaluation, that its argument
    lacks, and returns when none is missing; it reads no other key, so a
    mapping without the intrinsic angles is converted. *)
Theorem converter_first_missing_key (h : heap) (parameters : loc)
    (d : gmap string R) :
  h !! parameters = Some d →
  (∀ key, first_missing m111_converter_keys d = Some key →
     ∃ h', m111.converter parameters h = (Raise (KeyError key), h')) ∧
  (first_missing m111_converter_keys d = None →
     ∃ converted h', m111.converter parameters h = (Ok converted, h')) ∧
  (∀ key, first_missing m6_converter_keys d = Some key →
     ∃ h', m6.converter parameters h = (Raise (KeyError key), h')) ∧
  (first_missing m6_converter_keys d = None →
     ∃ converted h', m6.converter parameters h = (Ok converted, h')).
Proof.
  intros Hh. pose proof (fresh_loc_ne _ _ _ Hh) as Hne.
  unfold m111_converter_keys, m6_converter_keys. simpl first_missing.
  repeat split.
  - intros key. unfold m111.converter.
    destruct (d !! "RM1_radm2") eqn:?; [| intros [= <-]; converter_raise Hh].
    destruct (d !! "RM2_radm2") eqn:?; [| intros [= <-]; converter_raise Hh].
    destruct (d !! "RM3_radm2") eqn:?; [| intros [= <-]; converter_raise Hh].
    destruct (d !! "fracPol1") eqn:?; [| intros [= <-]; converter_raise Hh].
    destruct (d !! "fracPol2") eqn:?; [| intros [= <-]; converter_raise Hh].
    destruct (d !! "fracPol3") eqn:?; [| intros [= <-]; converter_raise Hh].
    done.
  - repeat (match goal with
            | |- context [d !! ?k] => destruct (d !! k) eqn:?; [| done]
            end).
    intros _. eexists _, _. by apply m111_converter_run.
  - intros key. unfold m6.converter.
    destruct (d !! "RM1_radm2") eqn:?; [| intros [= <-]; converter_raise Hh].
    destruct (d !! "RM2_radm2") eqn:?; [| intros [= <-]; converter_raise Hh].
    destruct (d !! "fracPol1") eqn:?; [| intros [= <-]; converter_raise Hh].
    destruct (d !! "fracPol2") eqn:?; [| intros [= <-]; converter_raise Hh].
    done.
  - repeat (match goal with
            | |- context [d !! ?k] => destruct (d !! k) eqn:?; [| done]
            end).
    intros _. eexists _, _. by apply m6_converter_run.
Qed.

Lemma converter_first_missing_key_witness :
  (∃ converted h',
     m111.converter 1%positive
       {[1%positive := delete "psi01_deg" m111_overfull]} =
       (Ok converted, h')) ∧
  (∃ h',
     m6.converter 1%positive {[1%positive := delete "fracPol1" m6_zero_depth]}
       = (Raise (KeyError "fracPol1"), h')).
Proof.
  split.
  - refine (proj1 (proj2 (converter_first_missing_key
              {[1%positive := delete "psi01_deg" m111_overfull]} 1%positive
              (delete "psi01_deg" m111_overfull) _)) _); reflexivity.
  - refine (proj1 (proj2 (proj2 (converter_first_missing_key
              {[1%positive := delete "fracPol1" m6_zero_depth]} 1%positive
              (delete "fracPol1" m6_zero_depth) _))) "fracPol1" _);
      reflexivity.
Defined.

(** *** The modulus of the spectrum *)

Lemma cabs_nonneg (z : complex) : 0 <= cabs z.
Proof. apply sqrt_pos. Qed.

Lemma cabs_sqr (z : complex) :
  cabs z * cabs z = real z * real z + imag z * imag z.
Proof. unfold cabs. apply sqrt_sqrt. nra. Qed.

(** The triangle inequality. *)
Lemma cabs_triangle (z w : complex) : cabs (cadd z w) <= cabs z + cabs w.
Proof.
  pose proof (cabs_nonneg z) as Hz. pose proof (cabs_nonneg w) as Hw.
  pose proof (cabs_sqr z) as Ez. pose proof (cabs_sqr w) as Ew.
  pose proof (cabs_nonneg (cadd z w)) as Hs.
  pose proof (cabs_sqr (cadd z w)) as Es.
  destruct z as [a b], w as [c d]. simpl in *.
  set (u := cabs (Cx a b)) in *. set (v := cabs (Cx c d)) in *.
  set (s := cabs (cadd (Cx a b) (Cx c d))) in *.
  assert (a * c + b * d <= u * v) as Hcs.
  { destruct (Rle_dec (a * c + b * d) (u * v)) as [|Hn]; [done |].
    exfalso. apply Rnot_le_lt in Hn.
    assert (0 <= u * v) as Huv by (apply Rmult_le_pos; lra).
    assert ((u * v) * (u * v) < (a * c + b * d) * (a * c + b * d))
      by (apply Rmult_le_0_lt_compat; lra).
    assert ((u * v) * (u * v) = (a * a + b * b) * (c * c + d * d)) as E
      by (rewrite <- Ez, <- Ew; ring).
    pose proof (Rle_0_sqr (a * d - b * c)) as Hsq. unfold Rsqr in Hsq.
    nra. }
  destruct (Rle_dec s (u + v)) as [|Hn]; [done |].
  exfalso. apply Rnot_le_lt in Hn. nra.
Qed.

Lemma cabs_thin_component (p psi rm l : R) :
  cabs (thin_component p psi rm l) = Rabs p.
Proof.
  unfold cabs, thin_component, cis; simpl.
  set (t := 2 * (radians psi + rm * l)).
  replace (p * cos t * (p * cos t) + p * sin t * (p * sin t))
    with (Rsqr p * (Rsqr (sin t) + Rsqr (cos t))) by (unfold Rsqr; ring).
  rewrite sin2_cos2, Rmult_1_r. apply sqrt_Rsqr_abs.
Qed.

Lemma m111_spectrum_bound (θ : m111_spec.params) (l : R) :
  cabs (m111_spec.spectrum θ l) <=
    Rabs (m111_spec.fracPol1 θ) + Rabs (m111_spec.fracPol2 θ)
    + Rabs (m111_spec.fracPol3 θ).
Proof.
  unfold m111_spec.spectrum.
  eapply Rle_trans; [apply cabs_triangle |].
  rewrite cabs_thin_component.
  apply Rplus_le_compat_r.
  eapply Rle_trans; [apply cabs_triangle |].
  rewrite !cabs_thin_component. lra.
Qed.

(** |sin x| <= |x| *)
Lemma sin_abs_le (x : R) : Rabs (sin x) <= Rabs x.
Proof.
  assert (∀ y, 0 < y → Rabs (sin y) <= y) as Hpos.
  { intros y Hy. apply Rabs_le. split.
    - destruct (Rle_dec 1 y) as [H1 | H1].
      + pose proof (SIN_bound y). lra.
      + apply Rnot_le_lt in H1.
        pose proof PI2_1. pose proof (sin_ge_0 y). lra.
    - left. by apply sin_lt_x. }
  destruct (Rtotal_order x 0) as [Hx | [-> | Hx]].
  - replace (sin x) with (- sin (- x)) by (rewrite sin_neg; ring).
    rewrite Rabs_Ropp, (Rabs_left x) by done. apply Hpos. lra.
  - rewrite sin_0. lra.
  - rewrite (Rabs_right x) by lra. by apply Hpos.
Qed.

Lemma sinc_abs_le (x : R) : x ≠ 0 → Rabs (sin x / x) <= 1.
Proof.
  intros Hx. unfold Rdiv. rewrite Rabs_mult, Rabs_inv.
  pose proof (sin_abs_le x). pose proof (Rabs_pos_lt x Hx).
  apply (Rmult_le_reg_r (Rabs x)); [done |].
  rewrite Rmult_assoc, Rinv_l by lra. lra.
Qed.

Lemma cabs_burn_slab_real (p psi rm drm l : R) :
  drm * l ≠ 0 → cabs (burn_slab_real p psi rm drm l) <= Rabs p.
Proof.
  intros Hx. unfold burn_slab_real.
  pose proof (cabs_thin_component p psi (mean_RM rm drm) l) as Ht.
  pose proof (sinc_abs_le _ Hx) as Hs.
  set (z := thin_component p psi (mean_RM rm drm) l) in *.
  set (s := sin (drm * l) / (drm * l)) in *.
  clearbody z s. unfold cabs in *. simpl.
  replace (s * real z * (s * real z) + s * imag z * (s * imag z))
    with (Rsqr s * (real z * real z + imag z * imag z))
    by (unfold Rsqr; ring).
  rewrite sqrt_mult_alt by apply Rle_0_sqr.
  rewrite sqrt_Rsqr_abs, Ht.
  pose proof (Rabs_pos p). pose proof (Rabs_pos s). nra.
Qed.

(** X3: with fractions that are not negative, the modulus of every
    element that the [m111] model returns is at most
    [fracPol1 + fracPol2 + fracPol3]; it is at most 1 when that sum is. *)
Theorem m111_modulus_bound (pDict : gmap string R) (θ : m111_spec.params)
    (lamSqArr_m2 : list R) :
  m111_spec.holds pDict θ →
  0 <= m111_spec.fracPol1 θ → 0 <= m111_spec.fracPol2 θ →
  0 <= m111_spec.fracPol3 θ →
  ∃ quArr,
    m111.model pDict lamSqArr_m2 = Ok quArr ∧
    Forall (λ z, cabs z <= m111_spec.fracPol1 θ + m111_spec.fracPol2 θ
                           + m111_spec.fracPol3 θ) quArr ∧
    (m111_spec.fracPol1 θ + m111_spec.fracPol2 θ + m111_spec.fracPol3 θ <= 1 →
     Forall (λ z, cabs z <= 1) quArr).
Proof.
  intros Hθ H1 H2 H3. eexists. split; [by apply m111_model_run |].
  assert (∀ l, cabs (m111_spec.spectrum θ l) <=
               m111_spec.fracPol1 θ + m111_spec.fracPol2 θ
               + m111_spec.fracPol3 θ) as Hb.
  { intros l. pose proof (m111_spectrum_bound θ l) as Hb.
    rewrite !Rabs_right in Hb by lra. exact Hb. }
  split.
  - apply Forall_fmap, Forall_forall. intros l _. apply Hb.
  - intros Hsum. apply Forall_fmap, Forall_forall. intros l _.
    simpl. pose proof (Hb l). lra.
Qed.

Lemma m111_modulus_bound_witness :
  ∃ quArr, m111.model m111_single [0; 1; 2] = Ok quArr ∧
           Forall (λ z, cabs z <= 1) quArr.
Proof.
  destruct (m111_modulus_bound m111_single m111_single_params [0; 1; 2])
    as (quArr & Hrun & _ & Hone).
  - repeat split; reflexivity.
  - simpl. lra.
  - simpl. lra.
  - simpl. lra.
  - exists quArr. split; [exact Hrun |]. apply Hone. simpl. lra.
Defined.

(** X4: with fractions that are not negative, at a sample where no
    [ΔRM_k·λ²] is zero the element that the [m6] model returns is finite and
    its modulus is at most [fracPol1 + fracPol2]: the sinc envelope never
    amplifies. *)
Theorem m6_modulus_bound (pDict : gmap string R) (θ : m6_spec.params)
    (lamSqArr_m2 : list R) (i : nat) (lamSq : R) :
  m6_spec.holds pDict θ →
  0 <= m6_spec.fracPol1 θ → 0 <= m6_spec.fracPol2 θ →
  lamSqArr_m2 !! i = Some lamSq →
  m6_spec.deltaRM1_radm2 θ * lamSq ≠ 0 →
  m6_spec.deltaRM2_radm2 θ * lamSq ≠ 0 →
  ∃ quArr z,
    m6.model pDict lamSqArr_m2 = Ok quArr ∧
    quArr !! i = Some (of_complex z) ∧
    cabs z <= m6_spec.fracPol1 θ + m6_spec.fracPol2 θ.
Proof.
  intros Hθ H1 H2 Hi Hx1 Hx2.
  exists (m6_spec.spectrum θ <$> lamSqArr_m2),
    (cadd
       (burn_slab_real (m6_spec.fracPol1 θ) (m6_spec.psi01_deg θ)
          (m6_spec.RM1_radm2 θ) (m6_spec.deltaRM1_radm2 θ) lamSq)
       (burn_slab_real (m6_spec.fracPol2 θ) (m6_spec.psi02_deg θ)
          (m6_spec.RM2_radm2 θ) (m6_spec.deltaRM2_radm2 θ) lamSq)).
  split; [by apply m6_model_run |]. split.
  - rewrite list_lookup_fmap, Hi. simpl. f_equal.
    unfold m6_spec.spectrum. by rewrite !burn_slab_finite.
  - eapply Rle_trans; [apply cabs_triangle |].
    pose proof (cabs_burn_slab_real (m6_spec.fracPol1 θ)
                  (m6_spec.psi01_deg θ) (m6_spec.RM1_radm2 θ) _ _ Hx1).
    pose proof (cabs_burn_slab_real (m6_spec.fracPol2 θ)
                  (m6_spec.psi02_deg θ) (m6_spec.RM2_radm2 θ) _ _ Hx2).
    rewrite Rabs_right in * by lra. lra.
Qed.

Lemma m6_modulus_bound_witness :
  ∃ quArr z,
    m6.model m6_two_slabs [0.5; 2] = Ok quArr ∧
    quArr !! 1%nat = Some (of_complex z) ∧ cabs z <= 0.3 + 0.2.
Proof.
  apply (m6_modulus_bound m6_two_slabs m6_two_slabs_params [0.5; 2] 1 2).
  - repeat split; reflexivity.
  - simpl. lra.
  - simpl. lra.
  - reflexivity.
  - simpl. lra.
  - simpl. lra.
Defined.

(** *** The intrinsic angles and the labels of the components *)

Lemma radians_plus (a b : R) : radians (a + b) = radians a + radians b.
Proof. unfold radians. ring. Qed.

Lemma cexp_period_180 (v t : R) :
  cexp (cmul two_j (of_real (radians (v + 180) + t))) =
  cexp (cmul two_j (of_real (radians v + t))).
Proof.
  rewrite radians_plus, radians_180.
  unfold cexp, cmul, two_j, of_real; simpl.
  replace (0 * (radians v + PI + t) - 2 * 0) with 0 by ring.
  replace (0 * (radians v + t) - 2 * 0) with 0 by ring.
  replace (0 * 0 + 2 * (radians v + PI + t))
    with (2 * (radians v + t) + 2 * INR 1 * PI) by (simpl; ring).
  replace (0 * 0 + 2 * (radians v + t)) with (2 * (radians v + t)) by ring.
  by rewrite cos_period, sin_period.
Qed.

(** X5: each model has the period 180 degrees in each of its intrinsic
    angles: adding 180 to the value of a [psi0k_deg] key, whatever it is,
    leaves the outcome of the model unchanged. *)
Theorem model_period_180 (pDict : gmap string R) (lamSqArr_m2 : list R)
    (key : string) (v : R) :
  pDict !! key = Some v →
  (key ∈ ["psi01_deg"; "psi02_deg"; "psi03_deg"] →
     m111.model (<[key := v + 180]> pDict) lamSqArr_m2 =
       m111.model pDict lamSqArr_m2) ∧
  (key ∈ ["psi01_deg"; "psi02_deg"] →
     m6.model (<[key := v + 180]> pDict) lamSqArr_m2 =
       m6.model pDict lamSqArr_m2).
Proof.
  intros Hv. split; intros Hkey.
  - unfold m111.model.
    repeat (apply elem_of_cons in Hkey as [-> | Hkey]);
      [| | | by apply elem_of_nil in Hkey].
    all: model_lookups Hv; f_equal; np_fuse; by rewrite cexp_period_180.
  - unfold m6.model.
    repeat (apply elem_of_cons in Hkey as [-> | Hkey]);
      [| | by apply elem_of_nil in Hkey].
    all: model_lookups Hv; f_equal; np_fuse; by rewrite cexp_period_180.
Qed.

Lemma model_period_180_witness :
  m111.model (<["psi02_deg" := 45 + 180]> m111_single) [0; 1] =
    m111.model m111_single [0; 1] ∧
  m6.model (<["psi01_deg" := 10 + 180]> m6_two_slabs) [1; 2] =
    m6.model m6_two_slabs [1; 2].
Proof.
  split.
  - refine (proj1 (model_period_180 m111_single [0; 1] "psi02_deg" 45 _) _).
    + reflexivity.
    + in_list.
  - refine (proj2 (model_period_180 m6_two_slabs [1; 2] "psi01_deg" 10 _) _).
    + reflexivity.
    + in_list.
Defined.

(** Turning the intrinsic angle turns the component. *)
Lemma thin_component_rotate (p psi rm l delta : R) :
  thin_component p (psi + delta) rm l =
    cmul (cis (2 * radians delta)) (thin_component p psi rm l).
Proof.
  unfold thin_component, cis, cmul; simpl.
  rewrite radians_plus.
  replace (2 * (radians psi + radians delta + rm * l))
    with (2 * radians delta + 2 * (radians psi + rm * l)) by ring.
  rewrite cos_plus, sin_plus. apply complex_eq; ring.
Qed.

Lemma cmul_cadd (z w1 w2 : complex) :
  cmul z (cadd w1 w2) = cadd (cmul z w1) (cmul z w2).
Proof. unfold cmul, cadd; simpl. apply complex_eq; ring. Qed.

(** X6: turning every intrinsic angle of the [m111] model by
    [delta_deg] degrees multiplies every element of the spectrum by
    [exp(2i·delta)], [delta] in radians. *)
Theorem m111_rotation (pDict pDict' : gmap string R) (θ : m111_spec.params)
    (delta_deg : R) (lamSqArr_m2 : list R) :
  m111_spec.holds pDict θ →
  m111_spec.holds pDict' (m111_rotate delta_deg θ) →
  ∃ quArr,
    m111.model pDict lamSqArr_m2 = Ok quArr ∧
    m111.model pDict' lamSqArr_m2 =
      Ok (cmul (cis (2 * radians delta_deg)) <$> quArr).
Proof.
  intros Hθ Hθ'. eexists. split; [by apply m111_model_run |].
  rewrite (m111_model_run _ _ _ Hθ'). f_equal.
  rewrite <- list_fmap_compose. apply list_fmap_ext. intros _ l _.
  unfold compose, m111_spec.spectrum, m111_rotate; simpl.
  by rewrite !thin_component_rotate, !cmul_cadd.
Qed.

Lemma m111_rotation_witness :
  ∃ quArr,
    m111.model m111_single [0; 1] = Ok quArr ∧
    m111.model m111_single_turned [0; 1] =
      Ok (cmul (cis (2 * radians 15)) <$> quArr).
Proof.
  apply (m111_rotation m111_single m111_single_turned m111_single_params 15).
  - repeat split; reflexivity.
  - repeat split; reflexivity.
Defined.

Lemma cadd_comm (z w : complex) : cadd z w = cadd w z.
Proof. unfold cadd. apply complex_eq; ring. Qed.

(** The addition of the reals is associative; that of float64 is
    commutative only, so that what rests on this lemma holds of exact real
    arithmetic. *)
Lemma cadd_assoc (z w u : complex) : cadd (cadd z w) u = cadd z (cadd w u).
Proof. unfold cadd; simpl. apply complex_eq; ring. Qed.

Lemma fadd_comm (a b : float64) : fadd a b = fadd b a.
Proof. destruct a, b; simpl; try done. f_equal. ring. Qed.

Lemma cadd128_comm (z w : complex128) : cadd128 z w = cadd128 w z.
Proof. unfold cadd128. by rewrite (fadd_comm (real128 z)), (fadd_comm (imag128 z)). Qed.

(** X7: the models do not tell their first two components apart:
    exchanging all parameters of the components 1 and 2 of the [m111] model,
    or of the two slabs of the [m6] model, leaves the spectrum unchanged.
    The terms are the same and are added in the other order, so that only
    the commutativity of the addition is used. *)
Theorem model_label_symmetry (lamSqArr_m2 : list R) :
  (∀ (pDict pDict' : gmap string R) (θ : m111_spec.params),
     m111_spec.holds pDict θ →
     m111_spec.holds pDict' (m111_swap12 θ) →
     m111.model pDict' lamSqArr_m2 = m111.model pDict lamSqArr_m2) ∧
  (∀ (pDict pDict' : gmap string R) (θ : m6_spec.params),
     m6_spec.holds pDict θ →
     m6_spec.holds pDict' (m6_swap12 θ) →
     m6.model pDict' lamSqArr_m2 = m6.model pDict lamSqArr_m2).
Proof.
  split.
  - intros pDict pDict' θ Hθ Hθ'.
    rewrite (m111_model_run _ _ _ Hθ), (m111_model_run _ _ _ Hθ').
    f_equal. apply list_fmap_ext. intros _ l _.
    unfold m111_spec.spectrum, m111_swap12; simpl.
    by rewrite (cadd_comm (thin_component (m111_spec.fracPol2 θ) _ _ _)).
  - intros pDict pDict' θ Hθ Hθ'.
    rewrite (m6_model_run _ _ _ Hθ), (m6_model_run _ _ _ Hθ').
    f_equal. apply list_fmap_ext. intros _ l _.
    unfold m6_spec.spectrum, m6_swap12; simpl. apply cadd128_comm.
Qed.

Lemma model_label_symmetry_witness :
  m111.model m111_three_swapped [0; 1] = m111.model m111_three [0; 1] ∧
  m6.model m6_two_slabs_swapped [1; 2] = m6.model m6_two_slabs [1; 2].
Proof.
  split.
  - apply (proj1 (model_label_symmetry [0; 1]) m111_three
             m111_three_swapped m111_three_params).
    + repeat split; reflexivity.
    + repeat split; reflexivity.
  - apply (proj2 (model_label_symmetry [1; 2]) m6_two_slabs
             m6_two_slabs_swapped m6_two_slabs_params).
    + repeat split; reflexivity.
    + repeat split; reflexivity.
Defined.

(** *** The bounds of the priors *)

Lemma m6_uniform_bounds (d : gmap string R) (θ : m6_spec.params) :
  m6_spec.holds d θ → within_uniform_bounds m6.priors d →
  (0 <= m6_spec.fracPol1 θ <= 1 ∧ 0 <= m6_spec.fracPol2 θ <= 1) ∧
  (-1100 <= m6_spec.RM1_radm2 θ <= 1100 ∧
   -1100 <= m6_spec.RM2_radm2 θ <= 1100) ∧
  (0 <= m6_spec.deltaRM1_radm2 θ <= 100 ∧
   0 <= m6_spec.deltaRM2_radm2 θ <= 100).
Proof.
  intros (H1 & H2 & H3 & H4 & H5 & H6 & H7 & H8) Hb.
  pose proof (Hb "fracPol1" _ _ eq_refl eq_refl H1) as B1.
  pose proof (Hb "fracPol2" _ _ eq_refl eq_refl H2) as B2.
  pose proof (Hb "RM1_radm2" _ _ eq_refl eq_refl H5) as B5.
  pose proof (Hb "RM2_radm2" _ _ eq_refl eq_refl H6) as B6.
  pose proof (Hb "deltaRM1_radm2" _ _ eq_refl eq_refl H7) as B7.
  pose proof (Hb "deltaRM2_radm2" _ _ eq_refl eq_refl H8) as B8.
  unfold bilby.in_bounds in *. simpl in *. lra.
Qed.

Lemma m111_uniform_bounds (d : gmap string R) (θ : m111_spec.params) :
  m111_spec.holds d θ → within_uniform_bounds m111.priors d →
  (0 <= m111_spec.fracPol1 θ <= 1 ∧ 0 <= m111_spec.fracPol2 θ <= 1 ∧
   0 <= m111_spec.fracPol3 θ <= 1) ∧
  (-1100 <= m111_spec.RM1_radm2 θ <= 1100 ∧
   -1100 <= m111_spec.RM2_radm2 θ <= 1100 ∧
   -1100 <= m111_spec.RM3_radm2 θ <= 1100).
Proof.
  intros (H1 & H2 & H3 & H4 & H5 & H6 & H7 & H8 & H9) Hb.
  pose proof (Hb "fracPol1" _ _ eq_refl eq_refl H1) as B1.
  pose proof (Hb "fracPol2" _ _ eq_refl eq_refl H2) as B2.
  pose proof (Hb "fracPol3" _ _ eq_refl eq_refl H3) as B3.
  pose proof (Hb "RM1_radm2" _ _ eq_refl eq_refl H7) as B7.
  pose proof (Hb "RM2_radm2" _ _ eq_refl eq_refl H8) as B8.
  pose proof (Hb "RM3_radm2" _ _ eq_refl eq_refl H9) as B9.
  unfold bilby.in_bounds in *. simpl in *. lra.
Qed.

Ltac converted_lookup :=
  rewrite !contents_insert_eq; unfold m111_converted, m6_converted;
  rewrite ?lookup_insert_eq, ?lookup_insert_ne by done;
  rewrite ?lookup_insert_eq, ?lookup_insert_ne by done.

(** X8: exchanging the two slabs of an [m6] draw within the Uniform
    bounds negates the derived [delta_RM1_RM2_radm2] and keeps [sum_p1_p2];
    the ordering Constraint accepts at least one of the two labellings, and
    both only when the two rotation measures are equal. *)
Theorem m6_ordering_selects_labelling (h h' : heap) (l l' : loc)
    (d d' : gmap string R) (θ : m6_spec.params) :
  h !! l = Some d → h' !! l' = Some d' →
  m6_spec.holds d θ → m6_spec.holds d' (m6_swap12 θ) →
  within_uniform_bounds m6.priors d →
  ∃ c1 h1 c2 h2 cd,
    m6.converter l h = (Ok c1, h1) ∧ m6.converter l' h' = (Ok c2, h2) ∧
    contents h1 c1 !! "delta_RM1_RM2_radm2" =
      Some (m6_spec.RM1_radm2 θ - m6_spec.RM2_radm2 θ) ∧
    contents h2 c2 !! "delta_RM1_RM2_radm2" =
      Some (m6_spec.RM2_radm2 θ - m6_spec.RM1_radm2 θ) ∧
    contents h1 c1 !! "sum_p1_p2" = contents h2 c2 !! "sum_p1_p2" ∧
    bilby.get m6.priors "delta_RM1_RM2_radm2" = Some cd ∧
    (bilby.in_bounds cd (m6_spec.RM1_radm2 θ - m6_spec.RM2_radm2 θ) ∨
     bilby.in_bounds cd (m6_spec.RM2_radm2 θ - m6_spec.RM1_radm2 θ)) ∧
    (bilby.in_bounds cd (m6_spec.RM1_radm2 θ - m6_spec.RM2_radm2 θ) →
     bilby.in_bounds cd (m6_spec.RM2_radm2 θ - m6_spec.RM1_radm2 θ) →
     m6_spec.RM1_radm2 θ = m6_spec.RM2_radm2 θ).
Proof.
  intros Hh Hh' Hθ Hθ' Hb.
  destruct (m6_uniform_bounds d θ Hθ Hb) as (_ & (B1 & B2) & _).
  eexists _, _, _, _, _.
  split; [by apply m6_converter_draw |].
  split; [by apply m6_converter_draw |].
  split; [by converted_lookup |].
  split; [by converted_lookup |].
  split; [converted_lookup; simpl; f_equal; ring |].
  split; [reflexivity |].
  unfold bilby.in_bounds; simpl. split; [lra |]. lra.
Qed.

Lemma m6_two_slabs_within_bounds :
  within_uniform_bounds m6.priors m6_two_slabs.
Proof.
  intros key p v Hget Hkind Hv.
  unfold bilby.get in Hget.
  let l := eval lazy -[IZR Rdiv Rmult Rinv Ropp Rplus Rminus Z.pow_pos] in
             (bilby.items m6.priors) in
  change (bilby.items m6.priors) with l in Hget.
  cbn [bilby.lookup_items] in Hget.
  unfold m6_two_slabs in Hv.
  repeat (case_decide;
          [ subst key; injection Hget as <-;
            cbn [bilby.prior_kind] in Hkind; try discriminate Hkind;
            rewrite ?lookup_insert_ne in Hv by done;
            rewrite lookup_insert_eq in Hv; injection Hv as <-;
            unfold bilby.in_bounds; cbn [bilby.minimum bilby.maximum]; lra
          | ]).
  discriminate Hget.
Qed.

Lemma m6_ordering_selects_labelling_witness :
  ∃ c1 h1 c2 h2,
    m6.converter 1%positive {[1%positive := m6_two_slabs]} = (Ok c1, h1) ∧
    m6.converter 1%positive {[1%positive := m6_two_slabs_swapped]}
      = (Ok c2, h2) ∧
    contents h1 c1 !! "delta_RM1_RM2_radm2" = Some (50 - -50) ∧
    contents h2 c2 !! "delta_RM1_RM2_radm2" = Some (-50 - 50).
Proof.
  destruct (m6_ordering_selects_labelling
              {[1%positive := m6_two_slabs]}
              {[1%positive := m6_two_slabs_swapped]} 1%positive 1%positive
              m6_two_slabs m6_two_slabs_swapped m6_two_slabs_params)
    as (c1 & h1 & c2 & h2 & cd & H1 & H2 & H3 & H4 & _).
  - reflexivity.
  - reflexivity.
  - repeat split; reflexivity.
  - repeat split; reflexivity.
  - exact m6_two_slabs_within_bounds.
  - exists c1, h1, c2, h2. repeat split; assumption.
Defined.

(** X9: for a draw within the bounds of the Uniform priors, the derived
    differences of rotation measures never exceed the maximum of their
    Constraint and the derived sum never falls below its minimum: a
    difference is within its bounds exactly when the two rotation measures
    are in descending order, and the sum exactly when it is at most 1. *)
Theorem constraints_bind_one_side :
  (∀ (h : heap) (l : loc) (d : gmap string R) (θ : m111_spec.params),
     h !! l = Some d → m111_spec.holds d θ →
     within_uniform_bounds m111.priors d →
     ∃ c h1 v12 v23 vs c12 c23 cs,
       m111.converter l h = (Ok c, h1) ∧
       (contents h1 c !! "delta_RM1_RM2_radm2" = Some v12 ∧
        contents h1 c !! "delta_RM2_RM3_radm2" = Some v23 ∧
        contents h1 c !! "sum_p1_p2_p3" = Some vs) ∧
       (bilby.get m111.priors "delta_RM1_RM2_radm2" = Some c12 ∧
        bilby.get m111.priors "delta_RM2_RM3_radm2" = Some c23 ∧
        bilby.get m111.priors "sum_p1_p2_p3" = Some cs) ∧
       (v12 <= bilby.maximum c12 ∧ v23 <= bilby.maximum c23 ∧
        bilby.minimum cs <= vs) ∧
       (bilby.in_bounds c12 v12 ↔
          m111_spec.RM2_radm2 θ <= m111_spec.RM1_radm2 θ) ∧
       (bilby.in_bounds c23 v23 ↔
          m111_spec.RM3_radm2 θ <= m111_spec.RM2_radm2 θ) ∧
       (bilby.in_bounds cs vs ↔
          m111_spec.fracPol1 θ + m111_spec.fracPol2 θ
          + m111_spec.fracPol3 θ <= 1)) ∧
  (∀ (h : heap) (l : loc) (d : gmap string R) (θ : m6_spec.params),
     h !! l = Some d → m6_spec.holds d θ →
     within_uniform_bounds m6.priors d →
     ∃ c h1 v12 vs c12 cs,
       m6.converter l h = (Ok c, h1) ∧
       (contents h1 c !! "delta_RM1_RM2_radm2" = Some v12 ∧
        contents h1 c !! "sum_p1_p2" = Some vs) ∧
       (bilby.get m6.priors "delta_RM1_RM2_radm2" = Some c12 ∧
        bilby.get m6.priors "sum_p1_p2" = Some cs) ∧
       (v12 <= bilby.maximum c12 ∧ bilby.minimum cs <= vs) ∧
       (bilby.in_bounds c12 v12 ↔
          m6_spec.RM2_radm2 θ <= m6_spec.RM1_radm2 θ) ∧
       (bilby.in_bounds cs vs ↔
          m6_spec.fracPol1 θ + m6_spec.fracPol2 θ <= 1)).
Proof.
  split; intros h l d θ Hh Hθ Hb.
  - destruct (m111_uniform_bounds d θ Hθ Hb)
      as ((P1 & P2 & P3) & (B1 & B2 & B3)).
    eexists _, _, _, _, _, _, _, _.
    split; [by apply m111_converter_draw |].
    split; [repeat split; by converted_lookup |].
    split; [repeat split; reflexivity |].
    unfold bilby.in_bounds; simpl. repeat split; lra.
  - destruct (m6_uniform_bounds d θ Hθ Hb) as ((P1 & P2) & (B1 & B2) & _).
    eexists _, _, _, _, _, _.
    split; [by apply m6_converter_draw |].
    split; [repeat split; by converted_lookup |].
    split; [repeat split; reflexivity |].
    unfold bilby.in_bounds; simpl. repeat split; lra.
Qed.

Lemma constraints_bind_one_side_witness :
  ∃ c h1 v12 cd,
    m6.converter 1%positive {[1%positive := m6_two_slabs]} = (Ok c, h1) ∧
    contents h1 c !! "delta_RM1_RM2_radm2" = Some v12 ∧
    bilby.get m6.priors "delta_RM1_RM2_radm2" = Some cd ∧
    v12 <= bilby.maximum cd.
Proof.
  destruct (proj2 constraints_bind_one_side {[1%positive := m6_two_slabs]}
              1%positive m6_two_slabs m6_two_slabs_params)
    as (c & h1 & v12 & vs & c12 & cs & Hrun & (Hv & _) & (Hc & _)
        & (Hmax & _) & _).
  - reflexivity.
  - repeat split; reflexivity.
  - exact m6_two_slabs_within_bounds.
  - exists c, h1, v12, c12. repeat split; assumption.
Defined.

(** *** A slab of zero amplitude *)

Lemma fadd_zero_r (a : float64) : fadd a (Finite 0) = a.
Proof. destruct a; simpl; try done. f_equal. ring. Qed.

Lemma burn_slab_zero_amplitude (psi rm drm l : R) :
  drm * l ≠ 0 → burn_slab 0 psi rm drm l = C128 (Finite 0) (Finite 0).
Proof.
  intros Hx. rewrite burn_slab_finite by done.
  unfold burn_slab_real, thin_component, of_complex; simpl.
  f_equal; f_equal; ring.
Qed.

(** X10: a slab of the [m6] model with [fracPol2 = 0] contributes
    nothing where its [ΔRM_2·λ²] is not zero, the element being that of the
    first slab alone; where [ΔRM_2·λ²] is zero the element is NaN all the
    same. *)
Theorem m6_zero_amplitude_slab (pDict : gmap string R) (θ : m6_spec.params)
    (lamSqArr_m2 : list R) (i : nat) (lamSq : R) :
  m6_spec.holds pDict θ → m6_spec.fracPol2 θ = 0 →
  lamSqArr_m2 !! i = Some lamSq →
  ∃ quArr,
    m6.model pDict lamSqArr_m2 = Ok quArr ∧
    (m6_spec.deltaRM2_radm2 θ * lamSq ≠ 0 →
     quArr !! i =
       Some (burn_slab (m6_spec.fracPol1 θ) (m6_spec.psi01_deg θ)
               (m6_spec.RM1_radm2 θ) (m6_spec.deltaRM1_radm2 θ) lamSq)) ∧
    (m6_spec.deltaRM2_radm2 θ * lamSq = 0 →
     quArr !! i = Some (C128 NaN NaN)).
Proof.
  intros Hθ Hp2 Hi. eexists. split; [by apply m6_model_run |].
  rewrite list_lookup_fmap, Hi. simpl. unfold m6_spec.spectrum. rewrite Hp2.
  split; intros Hx; f_equal.
  - rewrite burn_slab_zero_amplitude by done.
    destruct (burn_slab _ _ _ _ _) as [re im]. unfold cadd128; simpl.
    by rewrite !fadd_zero_r.
  - rewrite (burn_slab_nan _ _ _ _ _ Hx). apply cadd128_nan_r.
Qed.

Lemma m6_zero_amplitude_slab_witness :
  ∃ quArr,
    m6.model m6_one_slab [1; 2] = Ok quArr ∧
    quArr !! 0%nat = Some (C128 NaN NaN).
Proof.
  destruct (m6_zero_amplitude_slab m6_one_slab m6_one_slab_params [1; 2] 0 1)
    as (quArr & Hrun & _ & Hnan).
  - repeat split; reflexivity.
  - reflexivity.
  - reflexivity.
  - exists quArr. split; [exact Hrun |]. apply Hnan. simpl. lra.
Defined.

(** *** The ordering of the components *)

Lemma m111_spectrum_swap12 (θ : m111_spec.params) (l : R) :
  m111_spec.spectrum (m111_swap12 θ) l = m111_spec.spectrum θ l.
Proof.
  unfold m111_spec.spectrum, m111_swap12; simpl.
  by rewrite (cadd_comm (thin_component (m111_spec.fracPol2 θ) _ _ _)).
Qed.

Lemma m111_spectrum_swap23 (θ : m111_spec.params) (l : R) :
  m111_spec.spectrum (m111_swap23 θ) l = m111_spec.spectrum θ l.
Proof.
  unfold m111_spec.spectrum, m111_swap23; simpl.
  rewrite !cadd_assoc. f_equal. apply cadd_comm.
Qed.

Lemma m111_spectrum_order12 (θ : m111_spec.params) (l : R) :
  m111_spec.spectrum (m111_order12 θ) l = m111_spec.spectrum θ l.
Proof.
  unfold m111_order12. destruct (Rle_dec _ _); [done |].
  apply m111_spectrum_swap12.
Qed.

Lemma m111_spectrum_order23 (θ : m111_spec.params) (l : R) :
  m111_spec.spectrum (m111_order23 θ) l = m111_spec.spectrum θ l.
Proof.
  unfold m111_order23. destruct (Rle_dec _ _); [done |].
  apply m111_spectrum_swap23.
Qed.

Lemma m111_components_order12 (θ : m111_spec.params) :
  m111_components (m111_order12 θ) ≡ₚ m111_components θ.
Proof.
  unfold m111_order12. destruct (Rle_dec _ _); [done |].
  unfold m111_components, m111_swap12; simpl. apply perm_swap.
Qed.

Lemma m111_components_order23 (θ : m111_spec.params) :
  m111_components (m111_order23 θ) ≡ₚ m111_components θ.
Proof.
  unfold m111_order23. destruct (Rle_dec _ _); [done |].
  unfold m111_components, m111_swap23; simpl.
  apply perm_skip, perm_swap.
Qed.

(** X11: the components of every [m111] draw can be relabelled in
    descending order of rotation measure, [RM3_radm2 <= RM2_radm2 <=
    RM1_radm2], which is what the two ordering Constraints ask for, and in
    exact real arithmetic the relabelled draw gives the same spectrum: the
    ordering removes relabelled duplicates only.  The equality of the spectra
    is that of sums of the same three terms in another order; it rests on
    the associativity of the addition of the reals, which the addition of
    float64 does not have. *)
Theorem m111_descending_labelling (θ : m111_spec.params) :
  m111_components (m111_descending θ) ≡ₚ m111_components θ ∧
  (m111_spec.RM2_radm2 (m111_descending θ)
     <= m111_spec.RM1_radm2 (m111_descending θ) ∧
   m111_spec.RM3_radm2 (m111_descending θ)
     <= m111_spec.RM2_radm2 (m111_descending θ)) ∧
  ∀ (pDict pDict' : gmap string R) (lamSqArr_m2 : list R),
    m111_spec.holds pDict θ →
    m111_spec.holds pDict' (m111_descending θ) →
    m111.model pDict' lamSqArr_m2 = m111.model pDict lamSqArr_m2.
Proof.
  split; [| split].
  - unfold m111_descending.
    by rewrite m111_components_order12, m111_components_order23,
      m111_components_order12.
  - unfold m111_descending, m111_order12, m111_order23, m111_swap12,
      m111_swap23.
    repeat (destruct (Rle_dec _ _); simpl in *); lra.
  - intros pDict pDict' lam Hθ Hθ'.
    rewrite (m111_model_run _ _ _ Hθ), (m111_model_run _ _ _ Hθ').
    f_equal. apply list_fmap_ext. intros _ l _. unfold m111_descending.
    by rewrite m111_spectrum_order12, m111_spectrum_order23,
      m111_spectrum_order12.
Qed.

Lemma m111_single_params_descending :
  m111_descending m111_single_params =
    m111_spec.Params 0.5 0 0 30 60 45 10 7 (-20).
Proof.
  unfold m111_descending.
  assert (m111_order12 m111_single_params = m111_single_params) as ->.
  { unfold m111_order12.
    destruct (Rle_dec _ _) as [_ | H]; [done |].
    exfalso. apply H. simpl. lra. }
  assert (m111_order23 m111_single_params =
            m111_spec.Params 0.5 0 0 30 60 45 10 7 (-20)) as ->.
  { unfold m111_order23.
    destruct (Rle_dec _ _) as [H | _]; [| reflexivity].
    exfalso. simpl in H. lra. }
  unfold m111_order12.
  destruct (Rle_dec _ _) as [_ | H]; [done |].
  exfalso. apply H. simpl. lra.
Qed.

Lemma m111_descending_labelling_witness :
  m111.model m111_single_descending [0; 1] = m111.model m111_single [0; 1].
Proof.
  refine (proj2 (proj2 (m111_descending_labelling m111_single_params))
            m111_single m111_single_descending [0; 1] _ _).
  - repeat split; reflexivity.
  - rewrite m111_single_params_descending. repeat split; reflexivity.
Defined.
